(** * 7up: dirty-region tracking for pixel sprites

    A shallow embedding of [src/index.js]: the interned [Point] class, the
    bounding-box classes ([BoundingRect], [BoundingGroup], [NullBoundingBox]),
    [Sprite], [Background], [Layer] and [Canvas], followed by the properties
    of the redraw algorithm.

    JavaScript objects that the program compares by identity or mutates are
    modelled with explicit state: every [Point] carries the identity of the
    object it denotes, the static cache [Point.points] and the drawable
    objects live in a [World] that each method threads through, and a thrown
    [TypeError] is a result of its own.

    The four imported helpers ([lodash.range], [@quarterto/flatmap],
    [@quarterto/flat-map-uniq] and the animation loop) are not part of the
    repository.  The first three are modelled by what the packages do on the
    arguments the program passes; the animation loop only decides when
    [move] and [draw] are called and is left out. *)

From Stdlib Require Import ZArith Lia Ascii DecimalString DecimalZ.
From stdpp Require Import gmap strings list.

Local Open Scope Z_scope.
Set Warnings "-register-all".

(** ** JavaScript values that reach the drawing code *)

(** Colours, blend modes and the [false] sentinel.  A palette entry is a
    string; a lookup that misses is [undefined]. *)
Inductive value :=
  | VFalse
  | VUndefined
  | VString (s : string).

#[global] Instance value_eq_dec : EqDecision value.
Proof. solve_decision. Defined.

(** Truthiness as [if (pixel)] and [||] test it. *)
Definition truthy (v : value) : bool :=
  match v with
  | VString s => negb (String.eqb s EmptyString)
  | _ => false
  end.

(** [a || b] *)
Definition js_or (a b : value) : value := if truthy a then a else b.

Inductive exn := TypeError.

Inductive result (A : Type) :=
  | Ok (a : A)
  | Throw (e : exn).
Arguments Ok {A} a.
Arguments Throw {A} e.

(** ** Points and bounding boxes *)

(** An instance of [class Point]: the identity of the object ([pid]) and its
    two fields, which the program never reassigns. *)
Record Point := mkPoint { pid : nat; p_x : Z; p_y : Z }.

#[global] Instance Point_eq_dec : EqDecision Point.
Proof. solve_decision. Defined.

(** [p === q] on two Point objects. *)
Definition same (p q : Point) : bool := Nat.eqb (pid p) (pid q).

Inductive BoundingBox :=
  | BoundingRect (origin opposite : Point)
  | BoundingGroup (children : list BoundingBox)
  | NullBoundingBox.

(** ** Drawable objects *)

(** [class Sprite extends struct('_origin', 'palette')] with its three
    instance fields.  [lastBoundingBox] is [None] for [null]. *)
Record Sprite := mkSprite {
  _origin : Point;
  palette : gmap Z value;
  pixels : list (list Z);
  stale : bool;
  lastBoundingBox : option BoundingBox
}.

Inductive Drawable :=
  | DSprite (s : Sprite)
  | DBackground (color : value).

(** References to drawable objects. *)
Definition loc := nat.

(** [class Layer extends struct('objects', 'blendMode')] *)
Record Layer := mkLayer { objects : list loc; blendMode : value }.

(** [class Canvas extends struct('layers')] *)
Record Canvas := mkCanvas { layers : list Layer }.

(** What the program does to the 2D context it is handed. *)
Inductive ctx_event :=
  | SetGlobalCompositeOperation (v : value)
  | SetFillStyle (v : value)
  | FillRect (x y w h : Z).

#[global] Instance ctx_event_eq_dec : EqDecision ctx_event.
Proof. solve_decision. Defined.

(** ** The world: the Point cache, the object heap and the context *)

Record World := mkWorld {
  points : gmap Z (gmap Z Point);   (* static Point.points *)
  next_point : nat;                 (* identity of the next allocated Point *)
  heap : loc -> Drawable;
  surface : list ctx_event          (* calls received by ctx, oldest first *)
}.

Definition set_points (f : gmap Z (gmap Z Point)) (n : nat) (w : World) : World :=
  mkWorld f n (heap w) (surface w).

Definition upd (h : loc -> Drawable) (l : loc) (d : Drawable) : loc -> Drawable :=
  fun l' => if Nat.eqb l' l then d else h l'.

Definition set_heap (h : loc -> Drawable) (w : World) : World :=
  mkWorld (points w) (next_point w) h (surface w).

Definition emit (e : ctx_event) (w : World) : World :=
  mkWorld (points w) (next_point w) (heap w) (surface w ++ [e]).

(** ** A state and exception monad over the world *)

Definition M (A : Type) : Type := World -> result A * World.

Definition ret {A} (a : A) : M A := fun w => (Ok a, w).

Definition throw {A} (e : exn) : M A := fun w => (Throw e, w).

Definition bind {A B} (m : M A) (k : A -> M B) : M B :=
  fun w =>
    match m w with
    | (Ok a, w') => k a w'
    | (Throw e, w') => (Throw e, w')
    end.

Notation "'let*' x ':=' c 'in' k" := (bind c (fun x => k))
  (at level 10, x name, c at level 100, k at level 200).

Notation "c ';;;' k" := (bind c (fun _ => k))
  (at level 100, k at level 200, right associativity).

Definition lift {A} (r : result A) : M A := fun w => (r, w).

Definition modify (f : World -> World) : M unit := fun w => (Ok tt, f w).

Definition read {A} (f : World -> A) : M A := fun w => (Ok (f w), w).

(** ** Library functions the program imports *)

(** [lodash.range] called with two integers: the step is 1 when
    [start < end] and -1 otherwise, the length is
    [max(ceil((end - start) / step), 0)] (the division is exact here), and
    the elements are [start], [start + step], ...  So [range(1, 4)] is
    [[1, 2, 3]], [range(4, 4)] is empty and, like the library's documented
    [range(-4)] = [range(0, -4)] = [[0, -1, -2, -3]], a range whose end is
    below its start counts down. *)
Fixpoint baseRange (start step : Z) (length : nat) : list Z :=
  match length with
  | O => []
  | S n => start :: baseRange (start + step) step n
  end.

Definition range (start end_ : Z) : list Z :=
  let step := if start <? end_ then 1 else -1 in
  baseRange start step (Z.to_nat (Z.max ((end_ - start) / step) 0)).

(** [Array.prototype.map] with an effectful callback. *)
Definition mapM {A B} (f : A -> M B) : list A -> M (list B) :=
  fix go xs :=
    match xs with
    | [] => ret []
    | x :: xs' => let* y := f x in let* ys := go xs' in ret (y :: ys)
    end.

(** [Array.prototype.forEach] *)
Definition forEach {A} (f : A -> M unit) : list A -> M unit :=
  fix go xs :=
    match xs with
    | [] => ret tt
    | x :: xs' => f x ;;; go xs'
    end.

(** [@quarterto/flatmap]: the concatenation of the arrays the callback
    returns, in order. *)
Definition flatMap {A B} (f : A -> M (list B)) : list A -> M (list B) :=
  fix go xs :=
    match xs with
    | [] => ret []
    | x :: xs' => let* ys := f x in let* zs := go xs' in ret (ys ++ zs)
    end.

(** A JavaScript [Set] of Point objects in insertion order: [add] keeps the
    set as it is when the very same object is already in it. *)
Definition Set_add (s : list Point) (p : Point) : list Point :=
  if existsb (same p) s then s else s ++ [p].

Definition uniq (l : list Point) : list Point := fold_left Set_add l [].

(** [@quarterto/flat-map-uniq]: [flatMap] with the duplicates (the same
    object again) dropped, first occurrences kept. *)
Definition flatMapUniq {A} (f : A -> M (list Point)) (xs : list A) : M (list Point) :=
  let* ys := flatMap f xs in ret (uniq ys).

(** ** class Point *)

(** [new Point(x, y)]: a new object is allocated; when the cache already
    holds an object for [(x, y)] the constructor returns that one instead,
    otherwise it stores the new object and returns it. *)
Definition Point_new (x y : Z) : M Point :=
  fun w =>
    let this := mkPoint (next_point w) x y in
    let n := S (next_point w) in
    match points w !! x with
    | Some row =>
        match row !! y with
        | Some p => (Ok p, set_points (points w) n w)
        | None => (Ok this, set_points (<[x := <[y := this]> row]> (points w)) n w)
        end
    | None => (Ok this, set_points (<[x := {[y := this]}]> (points w)) n w)
    end.

(** [Point.from({x, y})] *)
Definition Point_from (x y : Z) : M Point := Point_new x y.

(** [this.add(point)] for any object [point] with fields [x] and [y]. *)
Definition Point_add (this : Point) (x y : Z) : M Point :=
  Point_new (p_x this + x) (p_y this + y).

(** ** Bounding boxes *)

Definition BoundingRect_pixels (origin opposite : Point) : M (list Point) :=
  flatMap (fun x => mapM (fun y => Point_from x y) (range (p_y origin) (p_y opposite)))
          (range (p_x origin) (p_x opposite)).

(** [box.pixels()], dispatched on the class of [box]. *)
Fixpoint BoundingBox_pixels (box : BoundingBox) : M (list Point) :=
  match box with
  | BoundingRect origin opposite => BoundingRect_pixels origin opposite
  | BoundingGroup children => flatMapUniq BoundingBox_pixels children
  | NullBoundingBox => ret []
  end.

Definition BoundingGroup_pixels (children : list BoundingBox) : M (list Point) :=
  BoundingBox_pixels (BoundingGroup children).

(** ** class Sprite *)

(** A class that extends [Sprite] with the field initialiser
    [pixels = bitmap], instantiated as [new C(origin, palette)]: the
    constructor stores the two arguments, then the initialisers run, the
    second [lastBoundingBox] declaration overriding the first.  [Sprite]
    itself has [pixels = []]. *)
Definition Sprite_new (bitmap : list (list Z)) (origin : Point) (pal : gmap Z value) : Sprite :=
  mkSprite origin pal bitmap true None.

(** [get origin()] *)
Definition Sprite_origin (s : Sprite) : Point := _origin s.

(** [get boundingBox()]: reading [this.pixels[0].length] throws when the
    bitmap has no first row. *)
Definition Sprite_boundingBox (s : Sprite) : M BoundingBox :=
  match pixels s !! 0%nat with
  | None => throw TypeError
  | Some row0 =>
      let* opposite := Point_add (Sprite_origin s)
                                 (Z.of_nat (length row0))
                                 (Z.of_nat (length (pixels s))) in
      ret (BoundingRect (Sprite_origin s) opposite)
  end.

Definition Sprite_changedPixels (s : Sprite) : M (list Point) :=
  match lastBoundingBox s with
  | Some last =>
      let* box := Sprite_boundingBox s in
      BoundingGroup_pixels [last; box]
  | None =>
      let* box := Sprite_boundingBox s in
      BoundingBox_pixels box
  end.

(** [palette[i]], where [i] is [undefined] when the bitmap lookup missed. *)
Definition palette_at (pal : gmap Z value) (i : option Z) : value :=
  match i with
  | Some k => default VUndefined (pal !! k)
  | None => VUndefined
  end.

(** [getPixel(x, y)].  The [||] chain stops at its first true operand;
    [this.pixels[rx][ry]] throws when [this.pixels[rx]] is [undefined]. *)
Definition Sprite_getPixel (s : Sprite) (x y : Z) : result value :=
  let rx := x - p_x (Sprite_origin s) in
  let ry := y - p_y (Sprite_origin s) in
  if rx <? 0 then Ok VFalse
  else if ry <? 0 then Ok VFalse
  else
    match pixels s !! 0%nat with
    | None => Throw TypeError
    | Some row0 =>
        if rx >=? Z.of_nat (length row0) then Ok VFalse
        else if ry >=? Z.of_nat (length (pixels s)) then Ok VFalse
        else
          match pixels s !! Z.to_nat rx with
          | None => Throw TypeError
          | Some row => Ok (palette_at (palette s) (row !! Z.to_nat ry))
          end
    end.

Definition set_stale (b : bool) (s : Sprite) : Sprite :=
  mkSprite (_origin s) (palette s) (pixels s) b (lastBoundingBox s).

Definition set_lastBoundingBox (box : BoundingBox) (s : Sprite) : Sprite :=
  mkSprite (_origin s) (palette s) (pixels s) (stale s) (Some box).

Definition set__origin (origin : Point) (s : Sprite) : Sprite :=
  mkSprite origin (palette s) (pixels s) (stale s) (lastBoundingBox s).

(** The Sprite behind a reference; a Background has none of the Sprite
    accessors, so using one as a Sprite throws. *)
Definition get_sprite (this : loc) : M Sprite :=
  fun w =>
    match heap w this with
    | DSprite s => (Ok s, w)
    | DBackground _ => (Throw TypeError, w)
    end.

Definition put_sprite (this : loc) (s : Sprite) : M unit :=
  modify (fun w => set_heap (upd (heap w) this (DSprite s)) w).

(** [set origin(origin)]: three assignments in this order, the second one
    evaluating [this.boundingBox] on the old origin. *)
Definition Sprite_set_origin (this : loc) (origin : Point) : M unit :=
  let* s0 := get_sprite this in
  let s1 := set_stale true s0 in
  put_sprite this s1 ;;;
  let* box := Sprite_boundingBox s1 in
  let s2 := set_lastBoundingBox box s1 in
  put_sprite this s2 ;;;
  put_sprite this (set__origin origin s2).

Definition Sprite_move (this : loc) (origin : Point) : M unit :=
  Sprite_set_origin this origin.

(** [class Circle extends Sprite] *)
Definition Circle_pixels : list (list Z) :=
  [ [0;0;0;0;1;1;0;0;0;0];
    [0;0;1;1;1;1;1;1;0;0];
    [0;1;1;1;1;1;1;1;1;0];
    [0;1;1;1;1;1;1;1;1;0];
    [1;1;1;1;1;1;1;1;1;1];
    [1;1;1;1;1;1;1;1;1;1];
    [0;1;1;1;1;1;1;1;1;0];
    [0;1;1;1;1;1;1;1;1;0];
    [0;0;1;1;1;1;1;1;0;0];
    [0;0;0;0;1;1;0;0;0;0] ].

Definition Circle_new : Point -> gmap Z value -> Sprite := Sprite_new Circle_pixels.

(** ** class Background and method dispatch *)

(** [object.stale]: a field of a Sprite, a getter that returns [false] on a
    Background. *)
Definition obj_stale (d : Drawable) : bool :=
  match d with
  | DSprite s => stale s
  | DBackground _ => false
  end.

(** [object.stale = b]: the Background setter ignores the value. *)
Definition obj_set_stale (b : bool) (d : Drawable) : Drawable :=
  match d with
  | DSprite s => DSprite (set_stale b s)
  | DBackground c => DBackground c
  end.

Definition obj_changedPixels (d : Drawable) : M (list Point) :=
  match d with
  | DSprite s => Sprite_changedPixels s
  | DBackground _ => ret []
  end.

Definition obj_getPixel (d : Drawable) (x y : Z) : result value :=
  match d with
  | DSprite s => Sprite_getPixel s x y
  | DBackground c => Ok c
  end.

(** ** class Layer *)

Definition Layer_changedPixels (l : Layer) : M (list Point) :=
  let* h := read heap in
  flatMapUniq (fun o => let* d := read (fun w => heap w o) in obj_changedPixels d)
              (filter (fun o => obj_stale (h o) = true) (objects l)).

(** The [for ... of] loop of [getPixel]. *)
Fixpoint Layer_getPixel_loop (objs : list loc) (x y : Z) : M value :=
  match objs with
  | [] => ret VFalse
  | o :: rest =>
      let* d := read (fun w => heap w o) in
      let* pixel := lift (obj_getPixel d x y) in
      if truthy pixel then
        modify (fun w => set_heap (upd (heap w) o (obj_set_stale false (heap w o))) w) ;;;
        ret pixel
      else Layer_getPixel_loop rest x y
  end.

Definition Layer_getPixel (l : Layer) (x y : Z) : M value :=
  Layer_getPixel_loop (objects l) x y.

Definition Layer_drawPixel (l : Layer) (pixel : Point) : M unit :=
  modify (emit (SetGlobalCompositeOperation (js_or (blendMode l) (VString "source-over")))) ;;;
  let* c := Layer_getPixel l (p_x pixel) (p_y pixel) in
  modify (emit (SetFillStyle (js_or c (VString "transparent")))) ;;;
  modify (emit (FillRect (p_x pixel) (p_y pixel) 1 1)).

(** ** class Canvas *)

Definition Canvas_changedPixels (c : Canvas) : M (list Point) :=
  flatMapUniq Layer_changedPixels (layers c).

Definition Canvas_drawPixel (c : Canvas) (pixel : Point) : M unit :=
  forEach (fun l => Layer_drawPixel l pixel) (layers c).

Definition Canvas_draw (c : Canvas) : M unit :=
  let* px := Canvas_changedPixels c in
  forEach (Canvas_drawPixel c) px.

(** ** The boundingBox getters of Layer and Canvas *)

(** What these getters build: a BoundingGroup whose array of children holds
    the [boundingBox] of each member, which is [undefined] for a member
    without that property, as a Background is. *)
Inductive JSBox :=
  | Undefined
  | Box (b : BoundingBox)
  | Group (children : list JSBox).

(** [box.pixels()]; on [undefined] the call throws. *)
Fixpoint JSBox_pixels (box : JSBox) : M (list Point) :=
  match box with
  | Undefined => throw TypeError
  | Box b => BoundingBox_pixels b
  | Group children => flatMapUniq JSBox_pixels children
  end.

(** [object.boundingBox] *)
Definition obj_boundingBox (d : Drawable) : M JSBox :=
  match d with
  | DSprite s => let* b := Sprite_boundingBox s in ret (Box b)
  | DBackground _ => ret Undefined
  end.

(** [get boundingBox()] of Layer *)
Definition Layer_boundingBox (l : Layer) : M JSBox :=
  let* children :=
    mapM (fun o => let* d := read (fun w => heap w o) in obj_boundingBox d) (objects l) in
  ret (Group children).

(** [get boundingBox()] of Canvas *)
Definition Canvas_boundingBox (c : Canvas) : M JSBox :=
  let* children := mapM Layer_boundingBox (layers c) in
  ret (Group children).

(** ** toString *)




(** * Vocabulary of the properties *)

(** A pixel position, without the object that carries it. *)
Definition coord : Type := Z * Z.

(** The position of a Point object. *)
Definition at_ (p : Point) : coord := (p_x p, p_y p).

Definition coords (l : list Point) : list coord := map at_ l.

(** [Point.points[x][y]] *)
Definition cache_at (w : World) (x y : Z) : option Point :=
  match points w !! x with
  | Some row => row !! y
  | None => None
  end.

(** [p] is the object the cache holds for its own coordinates. *)
Definition interned (w : World) (p : Point) : Prop :=
  cache_at w (p_x p) (p_y p) = Some p.

(** The invariant of the cache: an entry sits under its own coordinates,
    was allocated before, and no object sits under two keys. *)
Record wf (w : World) : Prop := mk_wf {
  wf_key : ∀ x y p, cache_at w x y = Some p → p_x p = x ∧ p_y p = y;
  wf_old : ∀ x y p, cache_at w x y = Some p → (pid p < next_point w)%nat;
  wf_inj : ∀ x y x' y' p q,
    cache_at w x y = Some p → cache_at w x' y' = Some q → pid p = pid q →
    x = x' ∧ y = y'
}.

(** The state before any Point exists, on a given heap. *)
Definition World_init (h : loc -> Drawable) : World := mkWorld ∅ 0 h [].

(** Every cache entry of [w] is kept in [w']. *)
Definition cache_le (w w' : World) : Prop :=
  ∀ x y p, cache_at w x y = Some p → cache_at w' x y = Some p.

(** [w'] differs from [w] by Point allocations only. *)
Record extends (w w' : World) : Prop := mk_extends {
  ext_cache : cache_le w w';
  ext_heap : heap w' = heap w;
  ext_surface : surface w' = surface w
}.

(** The cache after [new Point(x, y)]. *)
Definition Point_new_result (w : World) (x y : Z) : Point :=
  match cache_at w x y with
  | Some p => p
  | None => mkPoint (next_point w) x y
  end.

(** The same insertion-ordered set, on coordinates. *)
Definition addc (s : list coord) (c : coord) : list coord :=
  if bool_decide (c ∈ s) then s else s ++ [c].

(** [uniq] on coordinates: first occurrences, in order. *)
Definition uniqc (l : list coord) : list coord := fold_left addc l [].

(** On heap [h], [m] returns Points with the coordinates [cs], all interned,
    and changes nothing but the cache, whose invariant it keeps. *)
Definition produces (h : loc -> Drawable) (m : M (list Point)) (cs : list coord) : Prop :=
  ∀ w, wf w → heap w = h →
    ∃ l w', m w = (Ok l, w') ∧ wf w' ∧ extends w w' ∧
            coords l = cs ∧ Forall (interned w') l.

(** Membership in [range a b]: counting up to [b], or down to it. *)
Definition between (a b v : Z) : Prop := a ≤ v < b ∨ b < v ≤ a.

(** The positions [BoundingRect.pixels] enumerates: x outermost. *)
Definition rect_coords (origin opposite : coord) : list coord :=
  range origin.1 opposite.1 ≫= fun x =>
    (fun y => (x, y)) <$> range origin.2 opposite.2.

(** The coordinates of [box.pixels()], without the cache. *)
Fixpoint box_coords (box : BoundingBox) : list coord :=
  match box with
  | BoundingRect origin opposite => rect_coords (at_ origin) (at_ opposite)
  | BoundingGroup children => uniqc (flat_map box_coords children)
  | NullBoundingBox => []
  end.

(** The corner opposite the origin: the origin plus (columns, rows). *)
Definition sprite_opposite (s : Sprite) : coord :=
  (p_x (_origin s) + Z.of_nat (length (default [] (pixels s !! 0%nat))),
   p_y (_origin s) + Z.of_nat (length (pixels s))).

(** The positions of [boundingBox.pixels()]. *)
Definition sprite_box_coords (s : Sprite) : list coord :=
  rect_coords (at_ (_origin s)) (sprite_opposite s).

(** The coordinates of [changedPixels()]. *)
Definition sprite_changed_coords (s : Sprite) : list coord :=
  match lastBoundingBox s with
  | Some last => uniqc (box_coords last ++ sprite_box_coords s)
  | None => sprite_box_coords s
  end.

(** The same for any drawable: a Background reports nothing. *)
Definition obj_changed_coords (d : Drawable) : list coord :=
  match d with
  | DSprite s => sprite_changed_coords s
  | DBackground _ => []
  end.

(** The objects on which no method faults for lack of a first bitmap row. *)
Definition has_rows (d : Drawable) : Prop :=
  match d with
  | DSprite s => pixels s ≠ []
  | DBackground _ => True
  end.

(** The bitmap cell at a row and a column. *)
Definition cell (s : Sprite) (row col : nat) : option Z :=
  match pixels s !! row with
  | Some r => r !! col
  | None => None
  end.

(** A Sprite of one row and two columns at (0, 0). *)
Definition wide_sprite : Sprite :=
  Sprite_new [[1; 2]] (mkPoint 0 0 0)
             (<[1 := VString "#F00"]> (<[2 := VString "#0F0"]> ∅)).

(** A 2×2 Sprite at (0, 0) whose four cells have four colours. *)
Definition square_sprite : Sprite :=
  Sprite_new [[1; 2]; [3; 4]] (mkPoint 0 0 0)
             (<[1 := VString "#100"]> (<[2 := VString "#200"]>
               (<[3 := VString "#300"]> (<[4 := VString "#400"]> ∅)))).

(** [object.getPixel(x, y)] returns normally with a falsy value. *)
Definition transparent_at (w : World) (x y : Z) (o : loc) : Prop :=
  ∃ v, obj_getPixel (heap w o) x y = Ok v ∧ truthy v = false.

(** The state after [object.stale = false] on [o]. *)
Definition clear_stale (o : loc) (w : World) : World :=
  set_heap (upd (heap w) o (obj_set_stale false (heap w o))) w.

(** Two stale one-pixel Sprites at (3, 3), object 0 red and the others
    green. *)
Definition two_sprites (o : loc) : Drawable :=
  match o with
  | O => DSprite (Sprite_new [[1]] (mkPoint 0 3 3) (<[1 := VString "#F00"]> ∅))
  | _ => DSprite (Sprite_new [[1]] (mkPoint 0 3 3) (<[1 := VString "#0F0"]> ∅))
  end.

(** The coordinates of [layer.changedPixels()] on heap [h]. *)
Definition layer_changed_coords (h : loc -> Drawable) (l : Layer) : list coord :=
  uniqc (filter (fun o => obj_stale (h o) = true) (objects l) ≫=
         fun o => obj_changed_coords (h o)).

(** Object 0 is a Sprite at rest ([stale] false); the others are a Sprite
    that was moved from (4, 4) to (5, 5). *)
Definition still_and_moved (o : loc) : Drawable :=
  match o with
  | O => DSprite (set_stale false (Sprite_new [[1]] (mkPoint 0 3 3) ∅))
  | _ => DSprite (mkSprite (mkPoint 1 5 5) ∅ [[1]] true
                    (Some (BoundingRect (mkPoint 2 4 4) (mkPoint 3 5 5))))
  end.

(** The value of a [getPixel] that returned. *)
Definition pixel_value (r : result value) : value :=
  match r with
  | Ok v => v
  | Throw _ => VFalse
  end.

(** How many times the trace assigns [mode] to [globalCompositeOperation]. *)
Definition blend_sets (mode : value) (trace : list ctx_event) : nat :=
  length (filter (fun e => e = SetGlobalCompositeOperation mode) trace).

(** The six assignments and calls that [Canvas.drawPixel] makes for one
    pixel of a canvas of two layers, a Background (of colour [color]) alone
    on the lower one and a Sprite alone on the upper one: blend mode, fill
    style and [fillRect] for the lower layer, then the same three for the
    upper one. *)
Definition frame (color bgmode topmode : value) (sprite : Sprite) (p : Point)
  : list ctx_event :=
  [ SetGlobalCompositeOperation (js_or bgmode (VString "source-over"));
    SetFillStyle (js_or color (VString "transparent"));
    FillRect (p_x p) (p_y p) 1 1;
    SetGlobalCompositeOperation (js_or topmode (VString "source-over"));
    SetFillStyle (js_or (pixel_value (Sprite_getPixel sprite (p_x p) (p_y p)))
                        (VString "transparent"));
    FillRect (p_x p) (p_y p) 1 1 ].

(** What holds of the heap all along [draw] in such a scene: only [stale]
    of the Sprite may change. *)
Definition scene_inv (bg top : loc) (color : value) (sprite : Sprite) (w : World) : Prop :=
  heap w bg = DBackground color ∧ ∃ b, heap w top = DSprite (set_stale b sprite).

(** The coordinates of [canvas.changedPixels()] on heap [h]. *)
Definition canvas_changed_coords (h : loc -> Drawable) (c : Canvas) : list coord :=
  uniqc (layers c ≫= layer_changed_coords h).

(** The scene of the source's last lines without its middle layer: a black
    Background, and a Circle at (100, 95) alone on a "lighter" layer. *)
Definition demo_heap (o : loc) : Drawable :=
  match o with
  | O => DBackground (VString "#000")
  | _ => DSprite (Circle_new (mkPoint 0 100 95)
                    (<[0 := VString "#000"]> (<[1 := VString "#00FF00"]> ∅)))
  end.

(** The Background's layer has [blendMode] false, as in the source. *)
Definition demo_canvas : Canvas :=
  mkCanvas [mkLayer [0%nat] VFalse; mkLayer [1%nat] (VString "lighter")].

(** [new Point(100, 95)] for the Circle's origin, then one diagonal move and
    one [draw()]. *)
Definition demo_frame : M unit :=
  let* origin := Point_new 100 95 in
  let* o := Point_new 101 96 in
  Sprite_move 1%nat o ;;; Canvas_draw demo_canvas.

(** The coordinates a computation returns from state [w], when it returns. *)
Definition run_coords (m : M (list Point)) (w : World) : option (list coord) :=
  match m w with
  | (Ok l, _) => Some (coords l)
  | (Throw _, _) => None
  end.

(** A bitmap that equals its transpose. *)
Definition symmetric (s : Sprite) : Prop := ∀ i j, cell s i j = cell s j i.

(** [(x, y)] lies in the rectangle of [cols] columns and [rows] rows whose
    top left corner is [p]. *)
Definition in_box (p : Point) (cols rows : nat) (x y : Z) : Prop :=
  p_x p ≤ x < p_x p + Z.of_nat cols ∧ p_y p ≤ y < p_y p + Z.of_nat rows.

(** Every object is as it was or has had [false] assigned to its [stale]. *)
Definition only_cleared (h h' : loc -> Drawable) : Prop :=
  ∀ o, h' o = h o ∨ h' o = obj_set_stale false (h o).

(** [getPixel] of the object returns at every coordinate. *)
Definition paints (d : Drawable) : Prop :=
  ∀ x y, ∃ v, obj_getPixel d x y = Ok v.

(** What [drawPixel] of a layer sends to the context for pixel [p] when
    its [getPixel] returned [c]. *)
Definition layer_events (p : Point) (lc : Layer * value) : list ctx_event :=
  [ SetGlobalCompositeOperation (js_or (blendMode lc.1) (VString "source-over"));
    SetFillStyle (js_or lc.2 (VString "transparent"));
    FillRect (p_x p) (p_y p) 1 1 ].

(** What one [draw()] sends to the context: for each changed pixel in turn,
    and for each layer in turn, the three operations of [drawPixel] with the
    colour that layer gave. *)
Definition draw_events (ls : list Layer) (px : list Point) (css : list (list value))
  : list ctx_event :=
  zip px css ≫= fun pc => zip ls pc.2 ≫= layer_events pc.1.

(** A Sprite without rows in front of a red one. *)
Definition faulty_then_red (o : loc) : Drawable :=
  match o with
  | O => DSprite (Sprite_new [] (mkPoint 0 3 3) ∅)
  | _ => DSprite (Sprite_new [[1]] (mkPoint 0 3 3) (<[1 := VString "#F00"]> ∅))
  end.

(** The scene the source builds: a black Background, [circle1] at (95, 95)
    and [circle2] at (100, 95), each alone on its layer, the last layer
    "lighter". *)
Definition source_heap (o : loc) : Drawable :=
  match o with
  | O => DBackground (VString "#000")
  | S O => DSprite (Circle_new (mkPoint 0 95 95)
                      (<[0 := VString "#000"]> (<[1 := VString "#FF0000"]> ∅)))
  | _ => DSprite (Circle_new (mkPoint 1 100 95)
                    (<[0 := VString "#000"]> (<[1 := VString "#00FF00"]> ∅)))
  end.

Definition source_canvas : Canvas :=
  mkCanvas [ mkLayer [0%nat] VFalse; mkLayer [1%nat] VFalse;
             mkLayer [2%nat] (VString "lighter") ].

(** The pixel shows a colour of the Sprite. *)
Definition hits (s : Sprite) (p : Point) : bool :=
  truthy (pixel_value (Sprite_getPixel s (p_x p) (p_y p))).

(** Somewhere in the box there is an [undefined] child. *)
Inductive has_undefined : JSBox -> Prop :=
  | has_undefined_here : has_undefined Undefined
  | has_undefined_child children c :
      c ∈ children → has_undefined c → has_undefined (Group children).

(** The coordinates of a child that is a Sprite's box. *)
Definition JSBox_coords (c : JSBox) : list coord :=
  match c with
  | Box b => box_coords b
  | _ => []
  end.

(** The child that [object.boundingBox] gives for an object in state [d]. *)
Definition child_of (d : Drawable) (c : JSBox) : Prop :=
  match d with
  | DSprite s => ∃ b, c = Box b ∧ box_coords b = sprite_box_coords s
  | DBackground _ => c = Undefined
  end.






(** A stale Sprite without rows behind a stale one-pixel Sprite. *)
Definition red_then_faulty (o : loc) : Drawable :=
  match o with
  | O => DSprite (Sprite_new [[1]] (mkPoint 0 3 3) (<[1 := VString "#F00"]> ∅))
  | _ => DSprite (Sprite_new [] (mkPoint 0 3 3) ∅)
  end.

(** * Properties *)

(** ** The Point cache *)

Lemma wf_init h : wf (World_init h).
Proof.
  split; unfold cache_at, World_init; simpl; intros *; rewrite lookup_empty; discriminate.
Qed.

Lemma extends_refl w : extends w w.
Proof. split; [by intros x y p|done|done]. Qed.

Lemma extends_trans w1 w2 w3 : extends w1 w2 → extends w2 w3 → extends w1 w3.
Proof.
  intros [c1 h1 s1] [c2 h2 s2]. split; [|congruence|congruence].
  intros x y p H. by apply c2, c1.
Qed.

Lemma interned_extends w w' p : extends w w' → interned w p → interned w' p.
Proof. intros [c _ _] H. apply c, H. Qed.

Lemma Forall_interned_extends w w' l :
  extends w w' → Forall (interned w) l → Forall (interned w') l.
Proof.
  intros E H. eapply Forall_impl; [exact H|]. intros p. by apply interned_extends.
Qed.

(** In a well-formed cache identity and equality of coordinates coincide. *)
Lemma interned_same w p q :
  wf w → interned w p → interned w q →
  same p q = bool_decide (at_ p = at_ q).
Proof.
  intros W Hp Hq. unfold same, at_.
  destruct (Nat.eqb_spec (pid p) (pid q)) as [E|E].
  - destruct (wf_inj w W _ _ _ _ _ _ Hp Hq E) as [-> ->].
    symmetry. by apply bool_decide_eq_true.
  - symmetry. apply bool_decide_eq_false. intros [= Ex Ey].
    unfold interned in *. rewrite Ex, Ey in Hp. congruence.
Qed.

Lemma Point_new_eq w x y :
  ∃ w', Point_new x y w = (Ok (Point_new_result w x y), w') ∧
        next_point w' = S (next_point w) ∧
        heap w' = heap w ∧ surface w' = surface w ∧
        ∀ x' y', cache_at w' x' y' =
                 if bool_decide ((x', y') = (x, y)) then Some (Point_new_result w x y)
                 else cache_at w x' y'.
Proof.
  unfold Point_new, Point_new_result, cache_at.
  destruct (points w !! x) as [row|] eqn:Hx; [destruct (row !! y) as [p|] eqn:Hy|];
    eexists; (split; [reflexivity|]); simpl; repeat split; intros x' y';
    case_bool_decide as E.
  - injection E as -> ->. by rewrite Hx.
  - done.
  - injection E as -> ->. by rewrite lookup_insert_eq, lookup_insert_eq.
  - destruct (decide (x' = x)) as [->|Nx].
    + rewrite lookup_insert_eq, Hx. rewrite lookup_insert_ne; [done|congruence].
    + by rewrite lookup_insert_ne.
  - injection E as -> ->. by rewrite lookup_insert_eq, lookup_singleton_eq.
  - destruct (decide (x' = x)) as [->|Nx].
    + rewrite lookup_insert_eq, Hx. rewrite lookup_singleton_ne; [done|congruence].
    + by rewrite lookup_insert_ne.
Qed.

Lemma Point_new_result_at w x y : wf w → at_ (Point_new_result w x y) = (x, y).
Proof.
  intros W. unfold Point_new_result, at_.
  destruct (cache_at w x y) as [p|] eqn:H; [|done].
  by destruct (wf_key w W _ _ _ H) as [-> ->].
Qed.

Lemma Point_new_spec w x y :
  wf w →
  ∃ p w', Point_new x y w = (Ok p, w') ∧ wf w' ∧ extends w w' ∧
          at_ p = (x, y) ∧ interned w' p.
Proof.
  intros W. destruct (Point_new_eq w x y) as (w' & Hrun & Hn & Hh & Hs & Hc).
  pose proof (Point_new_result_at w x y W) as Hat.
  set (p := Point_new_result w x y) in *.
  assert (Hpx : p_x p = x) by (by injection Hat).
  assert (Hpy : p_y p = y) by (by injection Hat).
  assert (Hlt : (pid p < S (next_point w))%nat).
  { subst p. unfold Point_new_result. destruct (cache_at w x y) as [q|] eqn:H.
    - pose proof (wf_old w W _ _ _ H). lia.
    - simpl. lia. }
  assert (Hfresh : ∀ x' y' q, cache_at w x' y' = Some q → pid q = pid p →
                              x' = x ∧ y' = y).
  { intros x' y' q Hq E. subst p. unfold Point_new_result in *.
    destruct (cache_at w x y) as [p0|] eqn:H.
    - eapply (wf_inj w W); eauto.
    - pose proof (wf_old w W _ _ _ Hq). simpl in E. lia. }
  exists p, w'. split; [done|]. split; [|split; [|split; [done|]]].
  - split.
    + intros x' y' q. rewrite Hc. case_bool_decide as E.
      * injection E as -> ->. intros [= <-]. done.
      * apply (wf_key w W).
    + intros x' y' q. rewrite Hc, Hn. case_bool_decide as E.
      * intros [= <-]. done.
      * intros H. pose proof (wf_old w W _ _ _ H). lia.
    + intros x1 y1 x2 y2 q1 q2. rewrite !Hc.
      case_bool_decide as E1; case_bool_decide as E2.
      * injection E1 as -> ->. injection E2 as -> ->. done.
      * injection E1 as -> ->. intros [= <-] H2 E.
        destruct (Hfresh _ _ _ H2 (eq_sym E)) as [-> ->]. done.
      * injection E2 as -> ->. intros H1 [= <-] E.
        destruct (Hfresh _ _ _ H1 E) as [-> ->]. done.
      * apply (wf_inj w W).
  - split; [|done|done]. intros x' y' q Hq. rewrite Hc. case_bool_decide as E; [|done].
    injection E as -> ->. subst p. unfold Point_new_result. by rewrite Hq.
  - unfold interned. rewrite Hpx, Hpy, Hc. by rewrite bool_decide_eq_true_2.
Qed.

(** ** De-duplication: identity against coordinates *)

Lemma fold_addc_elem l : ∀ acc c, c ∈ fold_left addc l acc ↔ c ∈ acc ∨ c ∈ l.
Proof.
  induction l as [|d l IH]; intros acc c; simpl.
  - rewrite elem_of_nil. tauto.
  - rewrite IH, elem_of_cons. unfold addc. case_bool_decide as E.
    + split; [tauto|]. intros [H|[->|H]]; auto.
    + rewrite elem_of_app, list_elem_of_singleton. tauto.
Qed.

Lemma fold_addc_NoDup l : ∀ acc, NoDup acc → NoDup (fold_left addc l acc).
Proof.
  induction l as [|d l IH]; intros acc N; simpl; [done|].
  apply IH. unfold addc. case_bool_decide as E; [done|].
  apply NoDup_app. split; [done|]. split; [|apply NoDup_singleton].
  intros x Hx ->%list_elem_of_singleton. done.
Qed.

Lemma fold_addc_id l : ∀ acc, NoDup (acc ++ l) → fold_left addc l acc = acc ++ l.
Proof.
  induction l as [|d l IH]; intros acc N; simpl.
  - by rewrite app_nil_r.
  - unfold addc. rewrite bool_decide_eq_false_2.
    + rewrite IH; rewrite <- app_assoc; done.
    + apply NoDup_app in N as (_ & N & _). intros H. apply (N _ H). left.
Qed.

Lemma uniqc_elem l c : c ∈ uniqc l ↔ c ∈ l.
Proof. unfold uniqc. rewrite fold_addc_elem, elem_of_nil. tauto. Qed.

Lemma uniqc_NoDup l : NoDup (uniqc l).
Proof. apply fold_addc_NoDup, NoDup_nil_2. Qed.

Lemma uniqc_id l : NoDup l → uniqc l = l.
Proof. intros N. unfold uniqc. by rewrite fold_addc_id. Qed.

Lemma existsb_same w p s :
  wf w → interned w p → Forall (interned w) s →
  existsb (same p) s = bool_decide (at_ p ∈ coords s).
Proof.
  intros W Hp. induction 1 as [|q s Hq Hs IH]; simpl.
  - reflexivity.
  - rewrite IH, (interned_same w p q W Hp Hq).
    repeat case_bool_decide; rewrite elem_of_cons in *; simpl; tauto.
Qed.

Lemma fold_Set_add w l : ∀ acc,
  wf w → Forall (interned w) acc → Forall (interned w) l →
  coords (fold_left Set_add l acc) = fold_left addc (coords l) (coords acc) ∧
  Forall (interned w) (fold_left Set_add l acc).
Proof.
  induction l as [|p l IH]; intros acc W Ha Hl; simpl; [done|].
  apply Forall_cons in Hl as [Hp Hl].
  assert (Hstep : coords (Set_add acc p) = addc (coords acc) (at_ p) ∧
                  Forall (interned w) (Set_add acc p)).
  { unfold Set_add, addc. rewrite (existsb_same w p acc W Hp Ha).
    case_bool_decide; [done|]. split.
    - unfold coords. by rewrite map_app.
    - apply Forall_app. split; [done|]. by apply Forall_singleton. }
  destruct Hstep as [Hc Hi]. rewrite <- Hc. by apply IH.
Qed.

Lemma uniq_coords w l :
  wf w → Forall (interned w) l →
  coords (uniq l) = uniqc (coords l) ∧ Forall (interned w) (uniq l).
Proof. intros W H. apply (fold_Set_add w l [] W); [constructor|done]. Qed.

(** No object occurs twice in a [uniq]ed list, whatever the cache. *)
Lemma fold_Set_add_NoDup l : ∀ acc,
  NoDup (map pid acc) → NoDup (map pid (fold_left Set_add l acc)).
Proof.
  induction l as [|p l IH]; intros acc N; simpl; [done|].
  apply IH. unfold Set_add. destruct (existsb (same p) acc) eqn:E; [done|].
  rewrite map_app. apply NoDup_app. split; [done|]. split; [|apply NoDup_singleton].
  intros n Hn ->%list_elem_of_singleton.
  apply list_elem_of_fmap in Hn as (q & Hq & Hin).
  assert (existsb (same p) acc = true) as E'.
  { apply existsb_exists. exists q. split; [by apply list_elem_of_In|].
    unfold same. rewrite Hq. apply Nat.eqb_refl. }
  congruence.
Qed.

Lemma uniq_NoDup l : NoDup (map pid (uniq l)).
Proof. apply fold_Set_add_NoDup. constructor. Qed.

(** ** Computations that only allocate Points *)

Lemma bind_run {A B} (m : M A) (k : A -> M B) w a w' :
  m w = (Ok a, w') → bind m k w = k a w'.
Proof. intros H. unfold bind. by rewrite H. Qed.

Lemma produces_ret h : produces h (ret []) [].
Proof.
  intros w W _. exists [], w. split; [done|]. split; [done|].
  split; [apply extends_refl|]. split; [done|constructor].
Qed.

Lemma mapM_Point_from h x ys :
  produces h (mapM (fun y => Point_from x y) ys) ((fun y => (x, y)) <$> ys).
Proof.
  induction ys as [|y ys IH]; intros w W Hh; simpl.
  - by apply (produces_ret h).
  - destruct (Point_new_spec w x y W) as (p & w1 & Hp & W1 & E1 & Hat & Hi).
    destruct (IH w1 W1) as (l & w2 & Hl & W2 & E2 & Hc & Hil).
    { rewrite <- Hh. apply E1. }
    exists (p :: l), w2. unfold Point_from at 1.
    rewrite (bind_run _ _ _ _ _ Hp), (bind_run _ _ _ _ _ Hl).
    split; [done|]. split; [done|]. split; [by eapply extends_trans|].
    split; [simpl; by rewrite Hat, Hc|].
    constructor; [by eapply interned_extends|done].
Qed.

Lemma flatMap_produces {A} h (f : A -> M (list Point)) (g : A -> list coord) xs :
  (∀ x, x ∈ xs → produces h (f x) (g x)) →
  produces h (flatMap f xs) (xs ≫= g).
Proof.
  induction xs as [|x xs IH]; intros Hf w W Hh; simpl.
  - by apply (produces_ret h).
  - destruct (Hf x (list_elem_of_here _ _) w W Hh) as (l1 & w1 & H1 & W1 & E1 & Hc1 & Hi1).
    destruct (IH (fun x' Hx' => Hf x' (list_elem_of_further _ _ _ Hx')) w1 W1)
      as (l2 & w2 & H2 & W2 & E2 & Hc2 & Hi2).
    { rewrite <- Hh. apply E1. }
    exists (l1 ++ l2), w2.
    rewrite (bind_run _ _ _ _ _ H1), (bind_run _ _ _ _ _ H2).
    split; [done|]. split; [done|]. split; [by eapply extends_trans|].
    split.
    + unfold coords in *. by rewrite map_app, Hc1, Hc2.
    + apply Forall_app. split; [by eapply Forall_interned_extends|done].
Qed.

Lemma flatMapUniq_produces {A} h (f : A -> M (list Point)) (g : A -> list coord) xs :
  (∀ x, x ∈ xs → produces h (f x) (g x)) →
  produces h (flatMapUniq f xs) (uniqc (xs ≫= g)).
Proof.
  intros Hf w W Hh.
  destruct (flatMap_produces h f g xs Hf w W Hh) as (l & w' & Hl & W' & E & Hc & Hi).
  destruct (uniq_coords w' l W' Hi) as [Hu Hiu].
  exists (uniq l), w'. unfold flatMapUniq. rewrite (bind_run _ _ _ _ _ Hl).
  split; [done|]. split; [done|]. split; [done|]. split; [by rewrite Hu, Hc|done].
Qed.

(** ** Ranges *)

Lemma elem_of_baseRange n : ∀ start step v,
  v ∈ baseRange start step n ↔
  ∃ k : nat, (k < n)%nat ∧ v = start + Z.of_nat k * step.
Proof.
  induction n as [|n IH]; intros start step v; simpl.
  - rewrite elem_of_nil. split; [done|]. intros (k & Hk & _). lia.
  - rewrite elem_of_cons, IH. split.
    + intros [->|(k & Hk & ->)].
      * exists 0%nat. split; lia.
      * exists (S k). split; lia.
    + intros (k & Hk & ->). destruct k as [|k].
      * left. lia.
      * right. exists k. split; lia.
Qed.

Lemma NoDup_baseRange n : ∀ start step, step ≠ 0 → NoDup (baseRange start step n).
Proof.
  induction n as [|n IH]; intros start step Hs; simpl; constructor.
  - rewrite elem_of_baseRange. intros (k & Hk & E). nia.
  - by apply IH.
Qed.

Lemma range_up a b : a < b → range a b = baseRange a 1 (Z.to_nat (b - a)).
Proof.
  intros H. unfold range. rewrite (proj2 (Z.ltb_lt a b) H).
  rewrite Z.div_1_r. f_equal. lia.
Qed.

Lemma range_down a b : b ≤ a → range a b = baseRange a (-1) (Z.to_nat (a - b)).
Proof.
  intros H. unfold range. rewrite (proj2 (Z.ltb_ge a b) H).
  replace ((b - a) / -1) with (a - b) by (apply Z.div_unique_exact; lia).
  f_equal. lia.
Qed.

Lemma elem_of_range a b v : v ∈ range a b ↔ between a b v.
Proof.
  unfold between. destruct (Z.lt_ge_cases a b) as [H|H].
  - rewrite range_up by done. rewrite elem_of_baseRange. split.
    + intros (k & Hk & ->). lia.
    + intros [Hv|Hv]; [|lia]. exists (Z.to_nat (v - a)). lia.
  - rewrite range_down by done. rewrite elem_of_baseRange. split.
    + intros (k & Hk & ->). lia.
    + intros [Hv|Hv]; [lia|]. exists (Z.to_nat (a - v)). lia.
Qed.

Lemma NoDup_range a b : NoDup (range a b).
Proof.
  destruct (Z.lt_ge_cases a b) as [H|H].
  - rewrite range_up by done. by apply NoDup_baseRange.
  - rewrite range_down by done. by apply NoDup_baseRange.
Qed.

(** ** The coordinates a bounding box covers *)

Lemma flat_map_bind {A B} (f : A -> list B) l : flat_map f l = l ≫= f.
Proof. induction l as [|x l IH]; [done|]. simpl. by rewrite IH. Qed.

Lemma elem_of_rect_coords origin opposite x y :
  (x, y) ∈ rect_coords origin opposite ↔
  between origin.1 opposite.1 x ∧ between origin.2 opposite.2 y.
Proof.
  unfold rect_coords. rewrite list_elem_of_bind. split.
  - intros (x' & Hy & Hx). apply list_elem_of_fmap in Hy as (y' & [= -> ->] & Hy).
    by rewrite <- !elem_of_range.
  - intros [Hx Hy]. exists x. rewrite elem_of_range. split; [|done].
    apply list_elem_of_fmap. exists y. by rewrite elem_of_range.
Qed.

Lemma NoDup_rect_coords origin opposite : NoDup (rect_coords origin opposite).
Proof.
  unfold rect_coords. apply NoDup_bind.
  - intros x1 x2 [x y] _ _ H1 H2.
    apply list_elem_of_fmap in H1 as (? & [= -> _] & _).
    apply list_elem_of_fmap in H2 as (? & [= -> _] & _). done.
  - intros x _. apply NoDup_fmap_2; [|apply NoDup_range]. by intros ?? [= ->].
  - apply NoDup_range.
Qed.

(** Induction on bounding boxes, through the children of a group. *)
Lemma BoundingBox_ind' (P : BoundingBox -> Prop) :
  (∀ origin opposite, P (BoundingRect origin opposite)) →
  (∀ children, Forall P children → P (BoundingGroup children)) →
  P NullBoundingBox →
  ∀ box, P box.
Proof.
  intros Hr Hg Hn. fix IH 1. intros [origin opposite|children|].
  - apply Hr.
  - apply Hg. induction children as [|c cs IHcs]; constructor; [apply IH|apply IHcs].
  - apply Hn.
Qed.

Lemma BoundingRect_pixels_produces h origin opposite :
  produces h (BoundingRect_pixels origin opposite)
           (rect_coords (at_ origin) (at_ opposite)).
Proof.
  unfold BoundingRect_pixels, rect_coords. simpl. apply flatMap_produces.
  intros x _. apply mapM_Point_from.
Qed.

(** [pixels()] never throws, changes only the cache, and returns interned
    Points with the coordinates [box_coords] lists. *)
Lemma BoundingBox_pixels_produces h box :
  produces h (BoundingBox_pixels box) (box_coords box).
Proof.
  induction box as [origin opposite|children IH|] using BoundingBox_ind'.
  - apply BoundingRect_pixels_produces.
  - simpl. rewrite flat_map_bind. apply flatMapUniq_produces.
    intros c Hc. by apply (proj1 (Forall_forall _ _) IH).
  - apply produces_ret.
Qed.

Lemma fold_addc_absorb l : ∀ acc, (∀ c, c ∈ l → c ∈ acc) → fold_left addc l acc = acc.
Proof.
  induction l as [|d l IH]; intros acc H; simpl; [done|].
  unfold addc. rewrite bool_decide_eq_true_2 by (apply H; left).
  apply IH. intros c Hc. apply H. by right.
Qed.

Lemma uniqc_twice l : NoDup l → uniqc (l ++ l) = l.
Proof.
  intros N. unfold uniqc. rewrite fold_left_app.
  change (fold_left addc l []) with (uniqc l). rewrite (uniqc_id l N).
  by apply fold_addc_absorb.
Qed.

Lemma length_coords l : length (coords l) = length l.
Proof. apply length_map. Qed.

(** ** Sprites *)

Lemma Sprite_boundingBox_ok s w :
  wf w → pixels s ≠ [] →
  ∃ opposite w', Sprite_boundingBox s w = (Ok (BoundingRect (_origin s) opposite), w') ∧
                 wf w' ∧ extends w w' ∧ at_ opposite = sprite_opposite s ∧
                 interned w' opposite.
Proof.
  intros W Hne. unfold Sprite_boundingBox, sprite_opposite.
  destruct (pixels s) as [|row0 rows] eqn:Hp; [done|]. simpl.
  destruct (Point_new_spec w (p_x (_origin s) + Z.of_nat (length row0))
              (p_y (_origin s) + Z.of_nat (S (length rows))) W)
    as (p & w' & Hrun & W' & E & Hat & Hi).
  exists p, w'. unfold Point_add, Sprite_origin.
  rewrite (bind_run _ _ _ _ _ Hrun). done.
Qed.

Lemma Sprite_changedPixels_produces h s :
  pixels s ≠ [] → produces h (Sprite_changedPixels s) (sprite_changed_coords s).
Proof.
  intros Hne w W Hh.
  destruct (Sprite_boundingBox_ok s w W Hne) as (opp & w1 & Hbox & W1 & E1 & Hat & _).
  assert (Hh1 : heap w1 = h) by (rewrite <- Hh; apply E1).
  unfold Sprite_changedPixels, sprite_changed_coords, sprite_box_coords.
  destruct (lastBoundingBox s) as [last|]; rewrite (bind_run _ _ _ _ _ Hbox).
  - destruct (BoundingBox_pixels_produces h
                (BoundingGroup [last; BoundingRect (_origin s) opp]) w1 W1 Hh1)
      as (l & w2 & Hl & W2 & E2 & Hc & Hi).
    exists l, w2. split; [done|]. split; [done|]. split; [by eapply extends_trans|].
    split; [|done]. rewrite Hc. simpl. by rewrite app_nil_r, Hat.
  - destruct (BoundingBox_pixels_produces h (BoundingRect (_origin s) opp) w1 W1 Hh1)
      as (l & w2 & Hl & W2 & E2 & Hc & Hi).
    exists l, w2. split; [done|]. split; [done|]. split; [by eapply extends_trans|].
    split; [|done]. rewrite Hc. simpl. by rewrite Hat.
Qed.

Lemma obj_changedPixels_produces h d :
  has_rows d → produces h (obj_changedPixels d) (obj_changed_coords d).
Proof.
  destruct d as [s|c]; simpl; intros H.
  - by apply Sprite_changedPixels_produces.
  - apply produces_ret.
Qed.

Lemma NoDup_obj_changed_coords d : NoDup (obj_changed_coords d).
Proof.
  destruct d as [s|c]; simpl; [|constructor].
  unfold sprite_changed_coords. destruct (lastBoundingBox s).
  - apply uniqc_NoDup.
  - apply NoDup_rect_coords.
Qed.

(** The cache invariant does not look at the heap or at the context. *)
Lemma wf_same_cache w w' :
  points w' = points w → next_point w' = next_point w → wf w → wf w'.
Proof.
  intros Hp Hn [K O I].
  assert (Hc : ∀ x y, cache_at w' x y = cache_at w x y).
  { intros x y. unfold cache_at. by rewrite Hp. }
  split.
  - intros x y p. rewrite Hc. apply K.
  - intros x y p. rewrite Hc, Hn. apply O.
  - intros x y x' y' p q. rewrite !Hc. apply I.
Qed.

Lemma Point_new_twice w x y :
  ∃ p w1 w2, Point_new x y w = (Ok p, w1) ∧ Point_new x y w1 = (Ok p, w2).
Proof.
  destruct (Point_new_eq w x y) as (w1 & H1 & _ & _ & _ & Hc1).
  destruct (Point_new_eq w1 x y) as (w2 & H2 & _).
  exists (Point_new_result w x y), w1, w2. split; [done|].
  rewrite H2. f_equal. f_equal. unfold Point_new_result at 1.
  by rewrite Hc1, bool_decide_eq_true_2.
Qed.

Lemma flatMapUniq_inv {A} (f : A -> M (list Point)) xs w l w' :
  flatMapUniq f xs w = (Ok l, w') →
  ∃ ys, flatMap f xs w = (Ok ys, w') ∧ l = uniq ys.
Proof.
  unfold flatMapUniq, bind, ret.
  destruct (flatMap f xs w) as [[ys|e] w1]; [|done].
  intros [= <- <-]. by exists ys.
Qed.

(** ** The claims *)

(** C6.  In a state whose cache is well formed, [new Point(x, y)] returns a
    Point with these coordinates, a second [new Point(x, y)] returns the
    identical object, and so does every later construction of a Point with
    the same coordinates: equal coordinates mean the same object. *)
Theorem Point_interning w x y :
  wf w →
  ∃ p w1,
    Point_new x y w = (Ok p, w1) ∧ at_ p = (x, y) ∧
    (∃ w2, Point_new x y w1 = (Ok p, w2)) ∧
    ∀ w2 x' y' q w3,
      wf w2 → cache_le w1 w2 → Point_new x' y' w2 = (Ok q, w3) →
      at_ q = at_ p → q = p ∧ same q p = true.
Proof.
  intros W.
  destruct (Point_new_spec w x y W) as (p & w1 & H1 & W1 & E1 & Hat & Hi).
  exists p, w1. split; [done|]. split; [done|]. split.
  - destruct (Point_new_twice w x y) as (p' & w1' & w2 & H1' & H2').
    rewrite H1 in H1'. injection H1' as <- <-. by exists w2.
  - intros w2 x' y' q w3 W2 Hle Hq Hqp.
    destruct (Point_new_eq w2 x' y') as (w3' & Hq' & _).
    rewrite Hq in Hq'. injection Hq' as -> _.
    rewrite (Point_new_result_at w2 x' y' W2), Hat in Hqp. injection Hqp as -> ->.
    assert (Point_new_result w2 x y = p) as ->.
    { unfold Point_new_result. rewrite (Hle x y p); [done|].
      unfold interned in Hi. injection Hat as Hx Hy. by rewrite Hx, Hy in Hi. }
    split; [done|]. unfold same. apply Nat.eqb_refl.
Qed.

Lemma Point_interning_witness :
  wf (World_init (fun _ => DBackground VFalse)) ∧
  ∃ p w1, Point_new 3 4 (World_init (fun _ => DBackground VFalse)) = (Ok p, w1) ∧
          ∃ w2, Point_new 3 4 w1 = (Ok p, w2).
Proof.
  split; [apply wf_init|].
  destruct (Point_interning (World_init (fun _ => DBackground VFalse)) 3 4 (wf_init _))
    as (p & w1 & H1 & _ & H2 & _).
  by exists p, w1.
Defined.

(** C4, amended.  [pixels()] of a BoundingRect never throws and yields, each
    once, the Points whose x lies in [range(origin.x, opposite.x)] and whose
    y lies in [range(origin.y, opposite.y)].  When the origin is at most the
    opposite corner in both coordinates these are exactly the Points of the
    half-open rectangle; the result is empty when the two corners agree in
    x or in y; and the rectangle from (0,0) to (2,2) yields
    (0,0), (0,1), (1,0), (1,1). *)
Theorem BoundingRect_pixels_spec w origin opposite :
  wf w →
  ∃ l w',
    BoundingRect_pixels origin opposite w = (Ok l, w') ∧
    NoDup (coords l) ∧
    (∀ x y, (x, y) ∈ coords l ↔
            between (p_x origin) (p_x opposite) x ∧
            between (p_y origin) (p_y opposite) y) ∧
    (p_x origin ≤ p_x opposite → p_y origin ≤ p_y opposite →
     ∀ x y, (x, y) ∈ coords l ↔
            p_x origin ≤ x < p_x opposite ∧ p_y origin ≤ y < p_y opposite) ∧
    (p_x origin = p_x opposite ∨ p_y origin = p_y opposite → l = []) ∧
    (at_ origin = (0, 0) → at_ opposite = (2, 2) →
     coords l = [(0, 0); (0, 1); (1, 0); (1, 1)]).
Proof.
  intros W.
  destruct (BoundingRect_pixels_produces (heap w) origin opposite w W eq_refl)
    as (l & w' & Hl & _ & _ & Hc & _).
  assert (Hin : ∀ x y, (x, y) ∈ coords l ↔
                       between (p_x origin) (p_x opposite) x ∧
                       between (p_y origin) (p_y opposite) y).
  { intros x y. rewrite Hc. apply elem_of_rect_coords. }
  exists l, w'. split; [done|]. split; [rewrite Hc; apply NoDup_rect_coords|].
  split; [done|]. split; [|split].
  - intros Hx Hy x y. rewrite Hin. unfold between. lia.
  - intros Heq. destruct l as [|p l]; [done|]. exfalso.
    assert (Hp : (p_x p, p_y p) ∈ coords (p :: l)) by left.
    apply Hin in Hp. unfold between in Hp. lia.
  - intros Ho Hp. rewrite Hc, Ho, Hp. reflexivity.
Qed.

Lemma BoundingRect_pixels_spec_witness :
  wf (World_init (fun _ => DBackground VFalse)) ∧
  ∃ l w', BoundingRect_pixels (mkPoint 0 0 0) (mkPoint 1 2 2)
            (World_init (fun _ => DBackground VFalse)) = (Ok l, w') ∧
          coords l = [(0, 0); (0, 1); (1, 0); (1, 1)].
Proof.
  split; [apply wf_init|].
  destruct (BoundingRect_pixels_spec (World_init (fun _ => DBackground VFalse))
              (mkPoint 0 0 0) (mkPoint 1 2 2) (wf_init _))
    as (l & w' & H & _ & _ & _ & _ & Hc).
  exists l, w'. split; [done|]. by apply Hc.
Defined.

(** C4 as stated fails: the rectangle from (2,0) to (0,1) has
    origin.x ≥ opposite.x, and [pixels()] yields the two Points (2,0) and
    (1,0), because [range(2, 0)] counts down. *)
Lemma BoundingRect_pixels_reversed_not_empty :
  ∃ origin opposite l w',
    (let* origin := Point_new 2 0 in
     let* opposite := Point_new 0 1 in
     let* l := BoundingRect_pixels origin opposite in
     ret (origin, opposite, l)) (World_init (fun _ => DBackground VFalse))
      = (Ok (origin, opposite, l), w') ∧
    p_x origin >= p_x opposite ∧
    coords l = [(2, 0); (1, 0)] ∧ l ≠ [].
Proof.
  do 4 eexists. split; [vm_compute; reflexivity|].
  split; [vm_compute; discriminate|]. split; [reflexivity|discriminate].
Qed.

(** C5.  [pixels()] of a BoundingGroup never throws; its result holds no
    object and no coordinate twice, and a coordinate is in it exactly when
    some child's [pixels()] yields it.  A group of the same rectangle twice
    has as many Points as the rectangle alone. *)
Theorem BoundingGroup_pixels_spec w children :
  wf w →
  ∃ l w',
    BoundingGroup_pixels children w = (Ok l, w') ∧
    NoDup (map pid l) ∧ NoDup (coords l) ∧
    (∀ c, c ∈ coords l ↔
          ∃ child lc wc, child ∈ children ∧
                         BoundingBox_pixels child w = (Ok lc, wc) ∧ c ∈ coords lc) ∧
    (∀ a b, children = [BoundingRect a b; BoundingRect a b] →
            ∃ lr wr, BoundingRect_pixels a b w = (Ok lr, wr) ∧ length l = length lr).
Proof.
  intros W.
  destruct (BoundingBox_pixels_produces (heap w) (BoundingGroup children) w W eq_refl)
    as (l & w' & Hl & _ & _ & Hc & _).
  exists l, w'. split; [done|]. split; [|split; [|split]].
  - apply flatMapUniq_inv in Hl as (ys & _ & ->). apply uniq_NoDup.
  - rewrite Hc. apply uniqc_NoDup.
  - intros c. rewrite Hc. simpl. rewrite uniqc_elem, flat_map_bind, list_elem_of_bind.
    split.
    + intros (child & Hin & Hchild).
      destruct (BoundingBox_pixels_produces (heap w) child w W eq_refl)
        as (lc & wc & Hlc & _ & _ & Hcc & _).
      exists child, lc, wc. by rewrite Hcc.
    + intros (child & lc & wc & Hchild & Hlc & Hin).
      destruct (BoundingBox_pixels_produces (heap w) child w W eq_refl)
        as (lc' & wc' & Hlc' & _ & _ & Hcc & _).
      rewrite Hlc in Hlc'. injection Hlc' as <- <-.
      exists child. by rewrite <- Hcc.
  - intros a b ->.
    destruct (BoundingRect_pixels_produces (heap w) a b w W eq_refl)
      as (lr & wr & Hlr & _ & _ & Hcr & _).
    exists lr, wr. split; [done|].
    rewrite <- (length_coords l), <- (length_coords lr), Hc, Hcr. simpl.
    rewrite app_nil_r. by rewrite uniqc_twice by apply NoDup_rect_coords.
Qed.

Lemma BoundingGroup_pixels_spec_witness :
  wf (World_init (fun _ => DBackground VFalse)) ∧
  ∃ l w', BoundingGroup_pixels
            [BoundingRect (mkPoint 0 0 0) (mkPoint 1 2 2);
             BoundingRect (mkPoint 0 1 1) (mkPoint 1 3 2)]
            (World_init (fun _ => DBackground VFalse)) = (Ok l, w') ∧
          NoDup (coords l).
Proof.
  split; [apply wf_init|].
  destruct (BoundingGroup_pixels_spec (World_init (fun _ => DBackground VFalse))
              [BoundingRect (mkPoint 0 0 0) (mkPoint 1 2 2);
               BoundingRect (mkPoint 0 1 1) (mkPoint 1 3 2)] (wf_init _))
    as (l & w' & H & _ & N & _).
  by exists l, w'.
Defined.

Lemma upd_eq h l d : upd h l d l = d.
Proof. unfold upd. by rewrite Nat.eqb_refl. Qed.

Lemma upd_ne h l d l' : l' ≠ l → upd h l d l' = h l'.
Proof. intros H. unfold upd. by rewrite (proj2 (Nat.eqb_neq l' l) H). Qed.

(** What [move] does to a Sprite that has a first bitmap row. *)
Lemma Sprite_move_run w this s origin :
  wf w → heap w this = DSprite s → pixels s ≠ [] →
  ∃ opposite w',
    Sprite_move this origin w = (Ok tt, w') ∧ wf w' ∧
    at_ opposite = sprite_opposite s ∧
    heap w' this = DSprite (mkSprite origin (palette s) (pixels s) true
                              (Some (BoundingRect (_origin s) opposite))) ∧
    (∀ l, l ≠ this → heap w' l = heap w l) ∧
    surface w' = surface w ∧ cache_le w w'.
Proof.
  intros W Hs Hne.
  set (s1 := set_stale true s).
  set (w1 := set_heap (upd (heap w) this (DSprite s1)) w).
  assert (W1 : wf w1) by (by apply (wf_same_cache w)).
  destruct (Sprite_boundingBox_ok s1 w1 W1 Hne) as (opp & w2 & Hbox & W2 & E2 & Hat & _).
  set (s2 := set_lastBoundingBox (BoundingRect (_origin s) opp) s1).
  set (w3 := set_heap (upd (heap w2) this (DSprite s2)) w2).
  set (w4 := set_heap (upd (heap w3) this (DSprite (set__origin origin s2))) w3).
  exists opp, w4. split; [|split; [|split; [done|split; [|split; [|split]]]]].
  - unfold Sprite_move, Sprite_set_origin.
    assert (Hget : get_sprite this w = (Ok s, w)) by (unfold get_sprite; by rewrite Hs).
    rewrite (bind_run _ _ _ _ _ Hget).
    assert (Hput1 : put_sprite this s1 w = (Ok tt, w1)) by done.
    rewrite (bind_run _ _ _ _ _ Hput1). fold s1 in Hbox.
    rewrite (bind_run _ _ _ _ _ Hbox).
    assert (Hput2 : put_sprite this s2 w2 = (Ok tt, w3)) by done.
    by rewrite (bind_run _ _ _ _ _ Hput2).
  - apply (wf_same_cache w2); done.
  - simpl. by rewrite upd_eq.
  - intros l Hl. simpl. rewrite !upd_ne by done.
    destruct E2 as [_ -> _]. simpl. by rewrite upd_ne.
  - simpl. by destruct E2 as [_ _ ->].
  - intros x y p Hp. destruct E2 as [Hc _ _]. apply (Hc x y p Hp).
Qed.

(** C9.  A Sprite just constructed with a bitmap of [r] rows (at least one)
    and [c] columns reports as changed, each once, exactly the Points of the
    half-open rectangle from its origin to its origin plus (c, r). *)
Theorem Sprite_bootstrap_changedPixels w bitmap (c r : nat) origin pal :
  wf w → length bitmap = r → (0 < r)%nat → Forall (fun row => length row = c) bitmap →
  ∃ l w',
    Sprite_changedPixels (Sprite_new bitmap origin pal) w = (Ok l, w') ∧
    NoDup (coords l) ∧
    ∀ x y, (x, y) ∈ coords l ↔
           p_x origin ≤ x < p_x origin + Z.of_nat c ∧
           p_y origin ≤ y < p_y origin + Z.of_nat r.
Proof.
  intros W Hr Hpos Hc.
  destruct bitmap as [|row0 rows]; [simpl in Hr; lia|].
  apply Forall_cons in Hc as [Hc0 _].
  destruct (Sprite_changedPixels_produces (heap w) (Sprite_new (row0 :: rows) origin pal)
              ltac:(done) w W eq_refl) as (l & w' & Hl & _ & _ & Hco & _).
  exists l, w'. split; [done|].
  unfold sprite_changed_coords, sprite_box_coords, sprite_opposite in Hco. simpl in Hco.
  rewrite Hco. split; [apply NoDup_rect_coords|].
  intros x y. rewrite elem_of_rect_coords. unfold between. simpl in *. lia.
Qed.

Lemma Sprite_bootstrap_changedPixels_witness :
  wf (World_init (fun _ => DBackground VFalse)) ∧
  ∃ l w', Sprite_changedPixels (Circle_new (mkPoint 0 10 10) ∅)
            (World_init (fun _ => DBackground VFalse)) = (Ok l, w') ∧
          ∀ x y, (x, y) ∈ coords l ↔ 10 ≤ x < 20 ∧ 10 ≤ y < 20.
Proof.
  split; [apply wf_init|].
  destruct (Sprite_bootstrap_changedPixels (World_init (fun _ => DBackground VFalse))
              Circle_pixels 10 10 (mkPoint 0 10 10) ∅ (wf_init _) eq_refl)
    as (l & w' & H & _ & Hin).
  - lia.
  - repeat constructor.
  - exists l, w'. split; [done|]. intros x y. rewrite Hin. simpl. lia.
Defined.

(** C1.  On a Sprite whose bitmap has a first row, [move(newOrigin)]
    returns normally and leaves the Sprite with [stale] true, with
    [lastBoundingBox] the rectangle from the old origin to the old origin
    plus (columns, rows), and with [newOrigin] as its origin; no other object
    changes.  After moving a 2×2 Sprite from (0,0) to (5,5),
    [changedPixels()] returns eight Points, the four of the rectangle
    (0,0)-(2,2) and the four of the rectangle (5,5)-(7,7). *)
Theorem Sprite_move_spec w this s newOrigin :
  wf w → heap w this = DSprite s → pixels s ≠ [] →
  ∃ opposite w',
    Sprite_move this newOrigin w = (Ok tt, w') ∧
    at_ opposite = sprite_opposite s ∧
    heap w' this = DSprite (mkSprite newOrigin (palette s) (pixels s) true
                              (Some (BoundingRect (_origin s) opposite))) ∧
    (∀ l, l ≠ this → heap w' l = heap w l) ∧
    (∀ a b c d,
       pixels s = [[a; b]; [c; d]] → at_ (_origin s) = (0, 0) → at_ newOrigin = (5, 5) →
       ∃ l w'',
         (let* s' := get_sprite this in Sprite_changedPixels s') w' = (Ok l, w'') ∧
         NoDup (map pid l) ∧
         coords l = [(0, 0); (0, 1); (1, 0); (1, 1); (5, 5); (5, 6); (6, 5); (6, 6)]).
Proof.
  intros W Hs Hne.
  destruct (Sprite_move_run w this s newOrigin W Hs Hne)
    as (opp & w' & Hrun & W' & Hat & Hthis & Hother & _ & _).
  exists opp, w'. split; [done|]. split; [done|]. split; [done|]. split; [done|].
  intros a b c d Hpx Ho Hn.
  set (s' := mkSprite newOrigin (palette s) (pixels s) true
               (Some (BoundingRect (_origin s) opp))) in *.
  destruct (Sprite_changedPixels_produces (heap w') s' Hne w' W' eq_refl)
    as (l & w'' & Hl & _ & _ & Hco & _).
  exists l, w''.
  assert (Hget : get_sprite this w' = (Ok s', w')) by (unfold get_sprite; by rewrite Hthis).
  rewrite (bind_run _ _ _ _ _ Hget). split; [done|]. split.
  - unfold Sprite_changedPixels in Hl. simpl in Hl. unfold bind in Hl.
    destruct (Sprite_boundingBox s' w') as [[box|e] w1]; [|done].
    apply flatMapUniq_inv in Hl as (ys & _ & ->). apply uniq_NoDup.
  - rewrite Hco. unfold sprite_changed_coords, sprite_box_coords. simpl.
    rewrite Hat, Ho, Hn. unfold sprite_opposite. simpl. rewrite Hpx. simpl.
    injection Ho as -> ->. injection Hn as -> ->. reflexivity.
Qed.

Lemma Sprite_move_spec_witness :
  let s := Sprite_new [[1; 1]; [1; 1]] (mkPoint 0 0 0) ∅ in
  let w := World_init (fun _ => DSprite s) in
  wf w ∧
  ∃ w', Sprite_move 0%nat (mkPoint 1 5 5) w = (Ok tt, w') ∧
    ∃ l w'', (let* s' := get_sprite 0%nat in Sprite_changedPixels s') w' = (Ok l, w'') ∧
      coords l = [(0, 0); (0, 1); (1, 0); (1, 1); (5, 5); (5, 6); (6, 5); (6, 6)].
Proof.
  intros s w. split; [apply wf_init|].
  destruct (Sprite_move_spec w 0%nat s (mkPoint 1 5 5) (wf_init _) eq_refl)
    as (opp & w' & Hrun & _ & _ & _ & Hpx).
  - discriminate.
  - exists w'. split; [done|].
    destruct (Hpx 1 1 1 1 eq_refl eq_refl eq_refl) as (l & w'' & Hl & _ & Hc).
    by exists l, w''.
Defined.

(** What [getPixel] does on a bitmap with a first row.  Outside the bounds
    it returns [false]; inside it reads row [rx], column [ry], and throws
    when the bitmap has no row [rx]. *)
Lemma Sprite_getPixel_outside s x y :
  pixels s ≠ [] →
  ¬ (0 ≤ x - p_x (_origin s) < Z.of_nat (length (default [] (pixels s !! 0%nat))) ∧
     0 ≤ y - p_y (_origin s) < Z.of_nat (length (pixels s))) →
  Sprite_getPixel s x y = Ok VFalse.
Proof.
  intros Hne Hout. unfold Sprite_getPixel, Sprite_origin.
  destruct (pixels s) as [|row0 rows] eqn:Hp; [done|]. simpl in *.
  destruct (Z.ltb_spec (x - p_x (_origin s)) 0); [done|].
  destruct (Z.ltb_spec (y - p_y (_origin s)) 0); [done|].
  destruct (Z.geb_spec (x - p_x (_origin s)) (Z.of_nat (length row0))); [done|].
  destruct (Z.geb_spec (y - p_y (_origin s)) (Z.of_nat (S (length rows)))); [done|].
  lia.
Qed.

Lemma Sprite_getPixel_inside s x y :
  0 ≤ x - p_x (_origin s) < Z.of_nat (length (default [] (pixels s !! 0%nat))) →
  0 ≤ y - p_y (_origin s) < Z.of_nat (length (pixels s)) →
  Sprite_getPixel s x y =
    match pixels s !! Z.to_nat (x - p_x (_origin s)) with
    | Some row => Ok (palette_at (palette s) (row !! Z.to_nat (y - p_y (_origin s))))
    | None => Throw TypeError
    end.
Proof.
  intros Hx Hy. unfold Sprite_getPixel, Sprite_origin.
  destruct (pixels s) as [|row0 rows] eqn:Hp; [simpl in Hy; lia|]. simpl in *.
  destruct (Z.ltb_spec (x - p_x (_origin s)) 0); [lia|].
  destruct (Z.ltb_spec (y - p_y (_origin s)) 0); [lia|].
  destruct (Z.geb_spec (x - p_x (_origin s)) (Z.of_nat (length row0))); [lia|].
  destruct (Z.geb_spec (y - p_y (_origin s)) (Z.of_nat (S (length rows)))); [lia|].
  done.
Qed.

(** C7 fails on the code.  [getPixel] checks [rx] against the number of
    columns and [ry] against the number of rows, but then reads
    [pixels[rx][ry]]: the cell at row [rx], column [ry].  On a bitmap of one
    row and two columns the query (1,0), inside the bounds, throws, where the
    cell at row 0, column 1 holds 2; on a 2×2 bitmap it returns the colour of
    the cell at row 1, column 0 instead of row 0, column 1. *)
Theorem Sprite_getPixel_transposed :
  Sprite_getPixel wide_sprite 1 0 = Throw TypeError ∧
  palette_at (palette wide_sprite) (cell wide_sprite 0 1) = VString "#0F0" ∧
  Sprite_getPixel square_sprite 1 0 = Ok (VString "#300") ∧
  palette_at (palette square_sprite) (cell square_sprite 0 1) = VString "#200" ∧
  palette_at (palette square_sprite) (cell square_sprite 1 0) = VString "#300".
Proof. repeat split; vm_compute; reflexivity. Qed.

(** C8 fails on the code.  On a Sprite with no bitmap row, as [new Sprite]
    itself builds, [boundingBox] throws a TypeError on reading
    [this.pixels[0].length], [changedPixels()] throws with it, and
    [getPixel] throws at every coordinate that is not left of or above the
    origin (there it returns [false]). *)
Theorem Sprite_no_rows_faults origin pal w (i j : nat) :
  let s := Sprite_new [] origin pal in
  Sprite_boundingBox s w = (Throw TypeError, w) ∧
  Sprite_changedPixels s w = (Throw TypeError, w) ∧
  Sprite_getPixel s (p_x origin + Z.of_nat i) (p_y origin + Z.of_nat j) = Throw TypeError ∧
  Sprite_getPixel s (p_x origin - 1 - Z.of_nat i) (p_y origin + Z.of_nat j) = Ok VFalse.
Proof.
  intros s. split; [done|]. split; [done|]. unfold Sprite_getPixel. simpl. split.
  - rewrite (proj2 (Z.ltb_ge _ 0)) by lia. by rewrite (proj2 (Z.ltb_ge _ 0)) by lia.
  - by rewrite (proj2 (Z.ltb_lt _ 0)) by lia.
Qed.

(** ** Layers *)

Lemma Layer_getPixel_loop_miss objs w x y :
  Forall (transparent_at w x y) objs →
  Layer_getPixel_loop objs x y w = (Ok VFalse, w).
Proof.
  induction 1 as [|o objs (v & Hv & Ht) _ IH]; simpl; [done|].
  unfold bind, read, lift. by rewrite Hv, Ht.
Qed.

Lemma Layer_getPixel_loop_hit pre o post c w x y :
  Forall (transparent_at w x y) pre →
  obj_getPixel (heap w o) x y = Ok c → truthy c = true →
  Layer_getPixel_loop (pre ++ o :: post) x y w = (Ok c, clear_stale o w).
Proof.
  intros Hpre Hc Ht. induction Hpre as [|o' pre (v & Hv & Hf) _ IH]; simpl.
  - unfold bind, read, lift. by rewrite Hc, Ht.
  - unfold bind, read, lift. rewrite Hv, Hf. apply IH.
Qed.

Lemma obj_stale_cleared d : obj_stale (obj_set_stale false d) = false.
Proof. by destruct d. Qed.

(** C3.  [getPixel(x, y)] of a Layer, when the objects before the first hit
    return falsy values: it returns the colour of the first object whose
    [getPixel] is truthy and assigns [false] to that object's [stale], every
    other object, the cache and the context staying as they were; when every
    object returns a falsy value it returns [false] and changes nothing. *)
Theorem Layer_getPixel_spec w l x y :
  (∀ pre o post c,
     objects l = pre ++ o :: post →
     Forall (transparent_at w x y) pre →
     obj_getPixel (heap w o) x y = Ok c → truthy c = true →
     ∃ w', Layer_getPixel l x y w = (Ok c, w') ∧
           heap w' o = obj_set_stale false (heap w o) ∧
           obj_stale (heap w' o) = false ∧
           (∀ o', o' ≠ o → heap w' o' = heap w o') ∧
           points w' = points w ∧ next_point w' = next_point w ∧
           surface w' = surface w) ∧
  (Forall (transparent_at w x y) (objects l) →
   Layer_getPixel l x y w = (Ok VFalse, w)).
Proof.
  split.
  - intros pre o post c Hobjs Hpre Hc Ht. exists (clear_stale o w).
    unfold Layer_getPixel. rewrite Hobjs.
    split; [by apply Layer_getPixel_loop_hit|]. simpl. rewrite upd_eq.
    split; [done|]. split; [apply obj_stale_cleared|].
    split; [|done]. intros o' Hne. by apply upd_ne.
  - apply Layer_getPixel_loop_miss.
Qed.

Lemma Layer_getPixel_spec_witness :
  let w := World_init two_sprites in
  ∃ w', Layer_getPixel (mkLayer [0%nat; 1%nat] VFalse) 3 3 w = (Ok (VString "#F00"), w') ∧
        obj_stale (heap w' 0%nat) = false ∧ obj_stale (heap w' 1%nat) = true.
Proof.
  intros w.
  destruct (proj1 (Layer_getPixel_spec w (mkLayer [0%nat; 1%nat] VFalse) 3 3)
              [] 0%nat [1%nat] (VString "#F00") eq_refl (Forall_nil_2 _) eq_refl eq_refl)
    as (w' & Hrun & _ & Hs & Hother & _).
  exists w'. split; [done|]. split; [done|]. by rewrite Hother.
Defined.

Lemma Layer_changedPixels_produces h l :
  (∀ o, o ∈ objects l → obj_stale (h o) = true → has_rows (h o)) →
  produces h (Layer_changedPixels l) (layer_changed_coords h l).
Proof.
  intros Hrows w W Hh. unfold Layer_changedPixels, layer_changed_coords.
  assert (Hread : read heap w = (Ok h, w)) by (unfold read; by rewrite Hh).
  rewrite (bind_run _ _ _ _ _ Hread).
  refine (flatMapUniq_produces h _ (fun o => obj_changed_coords (h o)) _ _ w W Hh).
  intros o [Hst Hin]%list_elem_of_filter w1 W1 Hh1.
  assert (Hr : read (fun w0 => heap w0 o) w1 = (Ok (h o), w1))
    by (unfold read; by rewrite Hh1).
  rewrite (bind_run _ _ _ _ _ Hr).
  apply (obj_changedPixels_produces h (h o) (Hrows o Hin Hst) w1 W1 Hh1).
Qed.

Lemma produces_det h m cs w l w' :
  produces h m cs → wf w → heap w = h → m w = (Ok l, w') → coords l = cs.
Proof.
  intros Hp W Hh Hm. destruct (Hp w W Hh) as (l' & w'' & Hm' & _ & _ & Hc & _).
  rewrite Hm in Hm'. by injection Hm' as -> _.
Qed.

(** C2.  [changedPixels()] of a Layer whose stale Sprites all have a first
    bitmap row: it returns normally, leaves every object as it is, holds no
    object and no coordinate twice, and a coordinate is in it exactly when
    the [changedPixels()] of some member whose [stale] is true yields it.
    When one of two members is stale, the result has exactly the coordinates
    of that member's [changedPixels()]. *)
Theorem Layer_changedPixels_spec w l :
  wf w →
  (∀ o, o ∈ objects l → obj_stale (heap w o) = true → has_rows (heap w o)) →
  ∃ px w',
    Layer_changedPixels l w = (Ok px, w') ∧ heap w' = heap w ∧
    NoDup (map pid px) ∧ NoDup (coords px) ∧
    (∀ c, c ∈ coords px ↔
          ∃ o po wo, o ∈ objects l ∧ obj_stale (heap w o) = true ∧
                     obj_changedPixels (heap w o) w = (Ok po, wo) ∧ c ∈ coords po) ∧
    (∀ still moved,
       objects l = [still; moved] ∨ objects l = [moved; still] →
       obj_stale (heap w still) = false → obj_stale (heap w moved) = true →
       ∃ po wo, obj_changedPixels (heap w moved) w = (Ok po, wo) ∧
                coords px = coords po).
Proof.
  intros W Hrows.
  destruct (Layer_changedPixels_produces (heap w) l Hrows w W eq_refl)
    as (px & w' & Hrun & _ & E & Hc & _).
  exists px, w'. split; [done|]. split; [apply E|]. split; [|split; [|split]].
  - unfold Layer_changedPixels, bind, read in Hrun.
    apply flatMapUniq_inv in Hrun as (ys & _ & ->). apply uniq_NoDup.
  - rewrite Hc. apply uniqc_NoDup.
  - intros c. rewrite Hc. unfold layer_changed_coords.
    rewrite uniqc_elem, list_elem_of_bind. split.
    + intros (o & Hin & [Hst Ho]%list_elem_of_filter).
      destruct (obj_changedPixels_produces (heap w) (heap w o) (Hrows o Ho Hst) w W eq_refl)
        as (po & wo & Hpo & _ & _ & Hco & _).
      exists o, po, wo. by rewrite Hco.
    + intros (o & po & wo & Ho & Hst & Hpo & Hin). exists o. split.
      * by rewrite <- (produces_det _ _ _ _ _ _
                        (obj_changedPixels_produces (heap w) (heap w o) (Hrows o Ho Hst))
                        W eq_refl Hpo).
      * by apply list_elem_of_filter.
  - intros still moved Hobjs Hstill Hmoved.
    assert (Hin : moved ∈ objects l).
    { destruct Hobjs as [-> | ->]; [right; left | left]. }
    destruct (obj_changedPixels_produces (heap w) (heap w moved) (Hrows _ Hin Hmoved)
                w W eq_refl) as (po & wo & Hpo & _ & _ & Hco & _).
    exists po, wo. split; [done|]. rewrite Hc, Hco. unfold layer_changed_coords.
    assert (filter (fun o => obj_stale (heap w o) = true) (objects l) = [moved]) as ->.
    { destruct Hobjs as [-> | ->]; rewrite !filter_cons, filter_nil;
        repeat case_decide; congruence. }
    simpl. rewrite app_nil_r. apply uniqc_id, NoDup_obj_changed_coords.
Qed.

Lemma Layer_changedPixels_spec_witness :
  let w := World_init still_and_moved in
  wf w ∧
  ∃ px w', Layer_changedPixels (mkLayer [0%nat; 1%nat] VFalse) w = (Ok px, w') ∧
           ∃ po wo, obj_changedPixels (heap w 1%nat) w = (Ok po, wo) ∧
                    coords px = coords po.
Proof.
  intros w. split; [apply wf_init|].
  destruct (Layer_changedPixels_spec w (mkLayer [0%nat; 1%nat] VFalse) (wf_init _))
    as (px & w' & Hrun & _ & _ & _ & _ & Hone).
  - intros o Ho _. simpl in Ho.
    apply elem_of_cons in Ho as [->|Ho]; [discriminate|].
    apply list_elem_of_singleton in Ho as ->. discriminate.
  - exists px, w'. split; [done|].
    apply (Hone 0%nat 1%nat); [by left|reflexivity|reflexivity].
Defined.

(** ** Drawing *)

Lemma Sprite_getPixel_total s n x y :
  pixels s ≠ [] → length (pixels s) = n → Forall (fun row => length row = n) (pixels s) →
  ∃ v, Sprite_getPixel s x y = Ok v.
Proof.
  intros Hne Hn Hrows. unfold Sprite_getPixel.
  destruct (Z.ltb_spec (x - p_x (Sprite_origin s)) 0) as [|Hx]; [by eexists|].
  destruct (Z.ltb_spec (y - p_y (Sprite_origin s)) 0) as [|Hy]; [by eexists|].
  destruct (pixels s) as [|row0 rows] eqn:Hp; [done|]. simpl.
  apply Forall_cons in Hrows as [H0 _]. rewrite H0.
  destruct (Z.geb_spec (x - p_x (Sprite_origin s)) (Z.of_nat n)) as [|Hx']; [by eexists|].
  destruct (_ >=? _); [by eexists|].
  destruct ((row0 :: rows) !! Z.to_nat (x - p_x (Sprite_origin s))) as [row|] eqn:Hrow;
    [by eexists|].
  apply lookup_ge_None in Hrow. lia.
Qed.

Lemma Layer_drawPixel_single o mode p w v :
  obj_getPixel (heap w o) (p_x p) (p_y p) = Ok v →
  ∃ w1, Layer_drawPixel (mkLayer [o] mode) p w = (Ok tt, w1) ∧
        surface w1 = surface w ++
          [ SetGlobalCompositeOperation (js_or mode (VString "source-over"));
            SetFillStyle (js_or v (VString "transparent"));
            FillRect (p_x p) (p_y p) 1 1 ] ∧
        (∀ o', o' ≠ o → heap w1 o' = heap w o') ∧
        (heap w1 o = heap w o ∨ heap w1 o = obj_set_stale false (heap w o)).
Proof.
  intros Hv. unfold Layer_drawPixel, Layer_getPixel, bind, modify, read, lift. simpl.
  unfold bind, modify, read, lift. simpl. rewrite Hv.
  destruct (truthy v) eqn:Ht; simpl; eexists; (split; [reflexivity|]); simpl.
  - rewrite <- !app_assoc. simpl.
    split; [done|]. split; [intros o' Hne; by apply upd_ne|]. right. apply upd_eq.
  - rewrite <- !app_assoc. simpl. unfold js_or. rewrite Ht. simpl.
    split; [done|]. split; [done|]. by left.
Qed.

Section Scene.

(** A background object and a Sprite, each alone on its layer, the Sprite's
    layer on top; [getPixel] of the Sprite never throws. *)
Variables (bg top : loc) (color bgmode topmode : value) (sprite : Sprite).

Let canvas : Canvas := mkCanvas [mkLayer [bg] bgmode; mkLayer [top] topmode].

Hypothesis distinct : bg ≠ top.
Hypothesis getPixel_total : ∀ x y, ∃ v, Sprite_getPixel sprite x y = Ok v.

Lemma Canvas_drawPixel_scene p w :
  scene_inv bg top color sprite w →
  ∃ w1, Canvas_drawPixel canvas p w = (Ok tt, w1) ∧ scene_inv bg top color sprite w1 ∧
        surface w1 = surface w ++ frame color bgmode topmode sprite p.
Proof.
  intros [Hbg [b Htop]].
  destruct (Layer_drawPixel_single bg bgmode p w color) as (w1 & H1 & S1 & O1 & B1).
  { by rewrite Hbg. }
  destruct (getPixel_total (p_x p) (p_y p)) as [v Hv].
  assert (Htop1 : heap w1 top = DSprite (set_stale b sprite)).
  { rewrite O1 by done. done. }
  destruct (Layer_drawPixel_single top topmode p w1 v) as (w2 & H2 & S2 & O2 & B2).
  { by rewrite Htop1. }
  exists w2. split; [|split; [split|]].
  - unfold Canvas_drawPixel, canvas. simpl.
    rewrite (bind_run _ _ _ _ _ H1), (bind_run _ _ _ _ _ H2). done.
  - rewrite O2 by done. destruct B1 as [-> | ->]; by rewrite Hbg.
  - destruct B2 as [-> | ->]; rewrite Htop1; [by exists b|by exists false].
  - rewrite S2, S1, <- app_assoc. unfold frame. by rewrite Hv.
Qed.

Lemma forEach_drawPixel_scene px : ∀ w,
  scene_inv bg top color sprite w →
  ∃ w', forEach (Canvas_drawPixel canvas) px w = (Ok tt, w') ∧
        scene_inv bg top color sprite w' ∧
        surface w' = surface w ++ (px ≫= frame color bgmode topmode sprite).
Proof.
  induction px as [|p px IH]; intros w Hinv; simpl.
  - exists w. by rewrite app_nil_r.
  - destruct (Canvas_drawPixel_scene p w Hinv) as (w1 & H1 & I1 & S1).
    destruct (IH w1 I1) as (w' & H' & I' & S').
    exists w'. rewrite (bind_run _ _ _ _ _ H1).
    split; [done|]. split; [done|]. by rewrite S', S1, <- app_assoc.
Qed.

End Scene.

Lemma Canvas_changedPixels_produces h c :
  (∀ l o, l ∈ layers c → o ∈ objects l → obj_stale (h o) = true → has_rows (h o)) →
  produces h (Canvas_changedPixels c) (canvas_changed_coords h c).
Proof.
  intros Hrows. unfold Canvas_changedPixels, canvas_changed_coords.
  apply flatMapUniq_produces. intros l Hl.
  apply Layer_changedPixels_produces. intros o. by apply Hrows.
Qed.

Lemma blend_sets_frames color bgmode topmode sprite px :
  js_or bgmode (VString "source-over") ≠ js_or topmode (VString "source-over") →
  blend_sets (js_or topmode (VString "source-over"))
             (px ≫= frame color bgmode topmode sprite) = length px.
Proof.
  intros Hne. unfold blend_sets. induction px as [|p px IH]; [done|].
  rewrite bind_cons, filter_app, length_app, IH. unfold frame.
  rewrite !filter_cons, filter_nil.
  repeat case_decide; simpl; congruence.
Qed.

Lemma FillRect_in_frames color bgmode topmode sprite px x y w h :
  FillRect x y w h ∈ px ≫= frame color bgmode topmode sprite →
  (x, y) ∈ coords px ∧ w = 1 ∧ h = 1.
Proof.
  intros (p & Hin & Hp)%list_elem_of_bind.
  assert (x = p_x p ∧ y = p_y p ∧ w = 1 ∧ h = 1) as (-> & -> & -> & ->).
  { unfold frame in Hin. repeat (apply elem_of_cons in Hin as [Hin|Hin]; [try done|]).
    - by injection Hin.
    - by injection Hin.
    - by apply elem_of_nil in Hin. }
  split; [|done]. apply list_elem_of_fmap. by exists p.
Qed.

(** C10, amended.  A Sprite with a 10×10 bitmap alone on a top layer of
    blend mode "lighter", over a layer that holds a Background: after the
    Sprite is moved from (ox, oy) to (ox + dx, oy + dy), in particular by one
    pixel along a diagonal, [draw()] returns normally and handles, each
    once, exactly the Points of the old and of the new 10×10 bounding box.
    What it sends to the context is, for each such Point in turn, the six
    entries of [frame]: every [fillRect] is a 1×1 call at one of these
    Points, and each [fillRect] of the top layer comes right after its own
    assignment of "lighter" to the blend mode and of the fill style, so
    "lighter" is assigned once per changed Point. *)
Theorem Canvas_draw_after_move w bg top color bgmode s dx dy :
  wf w → bg ≠ top →
  heap w bg = DBackground color → heap w top = DSprite s →
  length (pixels s) = 10%nat → Forall (fun row => length row = 10%nat) (pixels s) →
  let canvas := mkCanvas [mkLayer [bg] bgmode; mkLayer [top] (VString "lighter")] in
  let ox := p_x (_origin s) in
  let oy := p_y (_origin s) in
  ∃ newOrigin px w',
    (let* o := Point_new (ox + dx) (oy + dy) in
     Sprite_move top o ;;; Canvas_draw canvas) w = (Ok tt, w') ∧
    at_ newOrigin = (ox + dx, oy + dy) ∧
    NoDup (coords px) ∧
    (∀ x y, (x, y) ∈ coords px ↔
            (ox ≤ x < ox + 10 ∧ oy ≤ y < oy + 10) ∨
            (ox + dx ≤ x < ox + dx + 10 ∧ oy + dy ≤ y < oy + dy + 10)) ∧
    surface w' = surface w ++
      (px ≫= frame color bgmode (VString "lighter") (set__origin newOrigin s)) ∧
    (∀ x y a b, FillRect x y a b ∈ (px ≫= frame color bgmode (VString "lighter")
                                           (set__origin newOrigin s)) →
                (x, y) ∈ coords px ∧ a = 1 ∧ b = 1) ∧
    (js_or bgmode (VString "source-over") ≠ VString "lighter" →
     blend_sets (VString "lighter")
                (px ≫= frame color bgmode (VString "lighter") (set__origin newOrigin s))
     = length px).
Proof.
  intros W Hdist Hbg Htop Hlen Hrows canvas ox oy.
  assert (Hne : pixels s ≠ []) by (intros E; by rewrite E in Hlen).
  destruct (Point_new_spec w (ox + dx) (oy + dy) W) as (o & w1 & Ho & W1 & E1 & Hato & _).
  assert (Htop1 : heap w1 top = DSprite s) by (destruct E1 as [_ -> _]; done).
  destruct (Sprite_move_run w1 top s o W1 Htop1 Hne)
    as (opp & w2 & Hmove & W2 & Hatopp & Htop2 & Hother2 & Hsurf2 & _).
  set (sprite := mkSprite o (palette s) (pixels s) true
                   (Some (BoundingRect (_origin s) opp))) in *.
  assert (Hbg2 : heap w2 bg = DBackground color).
  { rewrite Hother2 by done. destruct E1 as [_ -> _]. done. }
  destruct (Canvas_changedPixels_produces (heap w2) canvas) with (w := w2)
    as (px & w3 & Hpx & W3 & E3 & Hc & _); [|done|done|].
  { intros l o' Hl Ho' _. simpl in Hl.
    apply elem_of_cons in Hl as [->|Hl];
      [|apply list_elem_of_singleton in Hl as ->];
      apply list_elem_of_singleton in Ho' as ->.
    - by rewrite Hbg2.
    - by rewrite Htop2. }
  assert (Hinv : scene_inv bg top color sprite w3).
  { destruct E3 as [_ E3 _]. unfold scene_inv. rewrite E3. split; [done|]. by exists true. }
  destruct (forEach_drawPixel_scene bg top color bgmode (VString "lighter") sprite Hdist)
    with (px := px) (w := w3) as (w' & Hdraw & _ & Hsurf); [|done|].
  { intros x y. by apply (Sprite_getPixel_total sprite 10). }
  exists o, px, w'. split; [|split; [done|split; [|split; [|split; [|split]]]]].
  - rewrite (bind_run _ _ _ _ _ Ho), (bind_run _ _ _ _ _ Hmove).
    unfold Canvas_draw. by rewrite (bind_run _ _ _ _ _ Hpx).
  - rewrite Hc. apply uniqc_NoDup.
  - intros x y. rewrite Hc. unfold canvas_changed_coords, layer_changed_coords. simpl.
    rewrite !filter_cons, !filter_nil, Hbg2, Htop2. simpl.
    rewrite !app_nil_r, !uniqc_elem, Htop2. simpl.
    unfold sprite_changed_coords. simpl. rewrite uniqc_elem, elem_of_app.
    unfold sprite_box_coords. rewrite !elem_of_rect_coords, Hatopp.
    assert (Hox : p_x o = ox + dx) by (by injection Hato).
    assert (Hoy : p_y o = oy + dy) by (by injection Hato).
    unfold sprite_opposite, between, at_. simpl.
    destruct (pixels s) as [|row0 rows] eqn:Hp; [done|].
    apply Forall_cons in Hrows as [H0 _]. simpl. rewrite H0, Hox, Hoy.
    simpl in Hlen. fold ox oy. lia.
  - destruct E3 as [_ _ E3]. destruct E1 as [_ _ E1]. by rewrite Hsurf, E3, Hsurf2, E1.
  - intros x y a b. apply FillRect_in_frames.
  - intros Hmode. by apply (blend_sets_frames color bgmode (VString "lighter")).
Qed.

Lemma Canvas_draw_after_move_witness :
  wf (World_init demo_heap) ∧
  ∃ w', (let* o := Point_new (100 + 1) (95 + 1) in
         Sprite_move 1%nat o ;;; Canvas_draw demo_canvas) (World_init demo_heap)
        = (Ok tt, w').
Proof.
  split; [apply wf_init|].
  destruct (Canvas_draw_after_move (World_init demo_heap) 0%nat 1%nat
              (VString "#000") VFalse
              (Circle_new (mkPoint 0 100 95)
                 (<[0 := VString "#000"]> (<[1 := VString "#00FF00"]> ∅)))
              1 1 (wf_init _))
    as (o & px & w' & Hrun & _).
  - discriminate.
  - reflexivity.
  - reflexivity.
  - reflexivity.
  - repeat constructor.
  - by exists w'.
Defined.

(** C10 as stated fails: in this scene one [draw()] after one diagonal move
    returns normally and assigns "lighter" to the blend mode 119 times, once
    for each Point of the two overlapping 10×10 boxes, not once. *)
Lemma Canvas_draw_sets_lighter_per_pixel :
  (demo_frame (World_init demo_heap)).1 = Ok tt ∧
  blend_sets (VString "lighter") (surface (demo_frame (World_init demo_heap)).2) = 119%nat ∧
  blend_sets (VString "lighter") (surface (demo_frame (World_init demo_heap)).2) ≠ 1%nat.
Proof.
  split; [vm_compute; reflexivity|].
  assert (H : blend_sets (VString "lighter")
                (surface (demo_frame (World_init demo_heap)).2) = 119%nat)
    by (vm_compute; reflexivity).
  split; [exact H|]. rewrite H. discriminate.
Qed.

(** * Further properties of the code *)

(** ** Points *)

Lemma interned_inj w p q :
  interned w p → interned w q → at_ p = at_ q → p = q.
Proof.
  unfold interned, at_. intros Hp Hq [= Ex Ey]. rewrite Ex, Ey in Hp. congruence.
Qed.

Lemma interned_coords_inj w l1 : ∀ l2,
  Forall (interned w) l1 → Forall (interned w) l2 → coords l1 = coords l2 → l1 = l2.
Proof.
  induction l1 as [|p l1 IH]; intros [|q l2] H1 H2 Hc; try done.
  apply Forall_cons in H1 as [Hp H1]. apply Forall_cons in H2 as [Hq H2].
  simpl in Hc. assert (Hpq : at_ p = at_ q) by congruence.
  assert (Hcs : coords l1 = coords l2) by congruence.
  f_equal; [by eapply interned_inj|by apply IH].
Qed.

(** X1.  Two Points constructed with different coordinates are different
    objects; the constructor keeps every cache entry and touches neither
    the drawable objects nor the context. *)
Theorem Point_new_distinct w x1 y1 x2 y2 :
  wf w → (x1, y1) ≠ (x2, y2) →
  ∃ p w1 q w2,
    Point_new x1 y1 w = (Ok p, w1) ∧ Point_new x2 y2 w1 = (Ok q, w2) ∧
    same p q = false ∧ p ≠ q ∧
    interned w2 p ∧ interned w2 q ∧
    cache_le w w2 ∧ heap w2 = heap w ∧ surface w2 = surface w.
Proof.
  intros W Hne.
  destruct (Point_new_spec w x1 y1 W) as (p & w1 & Hp & W1 & E1 & Hatp & Hip).
  destruct (Point_new_spec w1 x2 y2 W1) as (q & w2 & Hq & W2 & E2 & Hatq & Hiq).
  pose proof (interned_extends _ _ _ E2 Hip) as Hip2.
  exists p, w1, q, w2. split; [done|]. split; [done|].
  assert (Hsame : same p q = false).
  { rewrite (interned_same w2 p q W2 Hip2 Hiq), Hatp, Hatq.
    by apply bool_decide_eq_false. }
  split; [done|]. split.
  - intros ->. unfold same in Hsame. by rewrite Nat.eqb_refl in Hsame.
  - split; [done|]. split; [done|].
    destruct (extends_trans _ _ _ E1 E2) as [Hc Hh Hs]. done.
Qed.

Lemma Point_new_distinct_witness :
  wf (World_init (fun _ => DBackground VFalse)) ∧ (1, 1) ≠ (1, 2) ∧
  ∃ p w1 q w2,
    Point_new 1 1 (World_init (fun _ => DBackground VFalse)) = (Ok p, w1) ∧
    Point_new 1 2 w1 = (Ok q, w2) ∧ same p q = false.
Proof.
  split; [apply wf_init|]. split; [discriminate|].
  destruct (Point_new_distinct (World_init (fun _ => DBackground VFalse)) 1 1 1 2
              (wf_init _)) as (p & w1 & q & w2 & Hp & Hq & Hs & _).
  - discriminate.
  - by exists p, w1, q, w2.
Defined.




(** ** Bounding boxes *)

Lemma length_baseRange n : ∀ start step, length (baseRange start step n) = n.
Proof. induction n as [|n IH]; intros; simpl; [done|]. by rewrite IH. Qed.

Lemma length_range a b : Z.of_nat (length (range a b)) = Z.abs (b - a).
Proof.
  destruct (Z.lt_ge_cases a b) as [H|H].
  - rewrite range_up by done. rewrite length_baseRange. lia.
  - rewrite range_down by done. rewrite length_baseRange. lia.
Qed.

Lemma length_rect_coords origin opposite :
  Z.of_nat (length (rect_coords origin opposite)) =
  Z.abs (opposite.1 - origin.1) * Z.abs (opposite.2 - origin.2).
Proof.
  unfold rect_coords. rewrite <- !length_range.
  induction (range origin.1 opposite.1) as [|x xs IH]; [done|].
  rewrite bind_cons, length_app, length_fmap, Nat2Z.inj_add.
  cbn [length]. unfold coord in *. lia.
Qed.

Lemma NoDup_box_coords box : NoDup (box_coords box).
Proof.
  destruct box; simpl.
  - apply NoDup_rect_coords.
  - apply uniqc_NoDup.
  - constructor.
Qed.

Lemma produces_run_coords m cs w :
  produces (heap w) m cs → wf w → run_coords m w = Some cs.
Proof.
  intros Hp W. destruct (Hp w W eq_refl) as (l & w' & Hm & _ & _ & Hc & _).
  unfold run_coords. by rewrite Hm, Hc.
Qed.

(** X3.  [pixels()] of any bounding box, however nested, returns normally,
    leaves the drawable objects and the context alone and keeps every cache
    entry; calling it again returns the identical Point objects, in the same
    order. *)
Theorem BoundingBox_pixels_repeat w box :
  wf w →
  ∃ l w1 w2,
    BoundingBox_pixels box w = (Ok l, w1) ∧
    BoundingBox_pixels box w1 = (Ok l, w2) ∧
    Forall (interned w1) l ∧
    cache_le w w1 ∧ heap w1 = heap w ∧ surface w1 = surface w.
Proof.
  intros W.
  destruct (BoundingBox_pixels_produces (heap w) box w W eq_refl)
    as (l & w1 & H1 & W1 & E1 & Hc1 & Hi1).
  destruct (BoundingBox_pixels_produces (heap w1) box w1 W1 eq_refl)
    as (l2 & w2 & H2 & W2 & E2 & Hc2 & Hi2).
  assert (l2 = l) as ->.
  { apply (interned_coords_inj w2); [done| |congruence].
    by apply (Forall_interned_extends w1). }
  exists l, w1, w2. split; [done|]. split; [done|]. split; [done|].
  destruct E1 as [Hc Hh Hs]. done.
Qed.

Lemma BoundingBox_pixels_repeat_witness :
  let w := World_init (fun _ => DBackground VFalse) in
  let box := BoundingGroup [BoundingRect (mkPoint 0 0 0) (mkPoint 1 2 2); NullBoundingBox] in
  wf w ∧
  ∃ l w1 w2, BoundingBox_pixels box w = (Ok l, w1) ∧ BoundingBox_pixels box w1 = (Ok l, w2).
Proof.
  intros w box. split; [apply wf_init|].
  destruct (BoundingBox_pixels_repeat w box (wf_init _)) as (l & w1 & w2 & H1 & H2 & _).
  by exists l, w1, w2.
Defined.

(** X4.  A BoundingRect yields |opposite.x - origin.x| times
    |opposite.y - origin.y| Points. *)
Theorem BoundingRect_pixels_count w origin opposite :
  wf w →
  ∃ l w',
    BoundingRect_pixels origin opposite w = (Ok l, w') ∧
    Z.of_nat (length l) =
      Z.abs (p_x opposite - p_x origin) * Z.abs (p_y opposite - p_y origin).
Proof.
  intros W.
  destruct (BoundingRect_pixels_produces (heap w) origin opposite w W eq_refl)
    as (l & w' & Hl & _ & _ & Hc & _).
  exists l, w'. split; [done|].
  by rewrite <- (length_coords l), Hc, length_rect_coords.
Qed.

Lemma BoundingRect_pixels_count_witness :
  wf (World_init (fun _ => DBackground VFalse)) ∧
  ∃ l w', BoundingRect_pixels (mkPoint 0 95 95) (mkPoint 1 105 105)
            (World_init (fun _ => DBackground VFalse)) = (Ok l, w') ∧
          length l = 100%nat.
Proof.
  split; [apply wf_init|].
  destruct (BoundingRect_pixels_count (World_init (fun _ => DBackground VFalse))
              (mkPoint 0 95 95) (mkPoint 1 105 105) (wf_init _)) as (l & w' & H & Hn).
  exists l, w'. split; [done|]. simpl in Hn. lia.
Defined.

(** X5.  Grouping composes: a group of one box covers what the box covers,
    a group inside a group adds nothing to flattening it, and a
    NullBoundingBox among the children contributes nothing. *)
Theorem BoundingGroup_pixels_flatten w box children :
  wf w →
  run_coords (BoundingGroup_pixels [box]) w = Some (box_coords box) ∧
  run_coords (BoundingBox_pixels box) w = Some (box_coords box) ∧
  run_coords (BoundingGroup_pixels [BoundingGroup children]) w
    = run_coords (BoundingGroup_pixels children) w ∧
  run_coords (BoundingGroup_pixels (NullBoundingBox :: children)) w
    = run_coords (BoundingGroup_pixels children) w ∧
  run_coords (BoundingGroup_pixels (children ++ [NullBoundingBox])) w
    = run_coords (BoundingGroup_pixels children) w.
Proof.
  intros W. unfold BoundingGroup_pixels.
  rewrite !(produces_run_coords _ _ w (BoundingBox_pixels_produces (heap w) _) W).
  simpl. rewrite !app_nil_r, flat_map_app. simpl. rewrite !app_nil_r.
  rewrite (uniqc_id (box_coords box)) by apply NoDup_box_coords.
  rewrite (uniqc_id (uniqc _)) by apply uniqc_NoDup. done.
Qed.

Lemma BoundingGroup_pixels_flatten_witness :
  let w := World_init (fun _ => DBackground VFalse) in
  let box := BoundingRect (mkPoint 0 0 0) (mkPoint 1 2 1) in
  wf w ∧ run_coords (BoundingGroup_pixels [box]) w = Some [(0, 0); (1, 0)].
Proof.
  intros w box. split; [apply wf_init|].
  apply (proj1 (BoundingGroup_pixels_flatten w box [] (wf_init _))).
Defined.

(** ** Sprites *)

Lemma Circle_symmetric origin pal : symmetric (Circle_new origin pal).
Proof.
  intros i j. unfold cell, Circle_new, Sprite_new, Circle_pixels. simpl.
  do 10 (destruct i as [|i];
         [do 10 (destruct j as [|j]; [reflexivity|]); reflexivity|]).
  do 10 (destruct j as [|j]; [reflexivity|]). reflexivity.
Qed.

(** X6.  On a bitmap that equals its transpose, as the Circle's does,
    [getPixel] never throws: inside the bounds it returns the palette entry
    of the cell at row [y - origin.y], column [x - origin.x], and outside
    them [false]. *)
Theorem Sprite_getPixel_symmetric s x y :
  symmetric s → pixels s ≠ [] →
  let rx := x - p_x (_origin s) in
  let ry := y - p_y (_origin s) in
  let cols := length (default [] (pixels s !! 0%nat)) in
  (0 ≤ rx < Z.of_nat cols ∧ 0 ≤ ry < Z.of_nat (length (pixels s)) →
   Sprite_getPixel s x y =
     Ok (palette_at (palette s) (cell s (Z.to_nat ry) (Z.to_nat rx)))) ∧
  (¬ (0 ≤ rx < Z.of_nat cols ∧ 0 ≤ ry < Z.of_nat (length (pixels s))) →
   Sprite_getPixel s x y = Ok VFalse).
Proof.
  intros Hsym Hne rx ry cols. split.
  - intros [Hx Hy]. rewrite Sprite_getPixel_inside by done. fold rx ry.
    rewrite <- (Hsym (Z.to_nat rx) (Z.to_nat ry)). unfold cell.
    destruct (pixels s !! Z.to_nat rx) as [row|] eqn:Hrow; [done|].
    exfalso.
    assert (H0 : cell s (Z.to_nat rx) 0 = cell s 0 (Z.to_nat rx)) by apply Hsym.
    unfold cell in H0. rewrite Hrow in H0.
    destruct (pixels s !! 0%nat) as [row0|] eqn:Hrow0.
    + symmetry in H0. apply lookup_ge_None in H0. subst cols. simpl in Hx. lia.
    + subst cols. simpl in Hx. lia.
  - intros Hout. by apply Sprite_getPixel_outside.
Qed.

Lemma Sprite_getPixel_symmetric_witness :
  let s := Circle_new (mkPoint 0 100 95) (<[0 := VString "#000"]> (<[1 := VString "#0F0"]> ∅)) in
  symmetric s ∧ pixels s ≠ [] ∧
  Sprite_getPixel s 104 95 = Ok (VString "#0F0") ∧
  Sprite_getPixel s 110 95 = Ok VFalse.
Proof.
  intros s. split; [apply Circle_symmetric|]. split; [discriminate|].
  destruct (Sprite_getPixel_symmetric s 104 95 (Circle_symmetric _ _)) as [Hin _];
    [discriminate|].
  destruct (Sprite_getPixel_symmetric s 110 95 (Circle_symmetric _ _)) as [_ Hout];
    [discriminate|].
  split.
  - rewrite Hin; [reflexivity|]. simpl. lia.
  - apply Hout. simpl. lia.
Defined.

(** X7.  Moving a Sprite moves its picture: after [move(newOrigin)] the
    Sprite shows at a position displaced by the move what it showed before
    at the position itself. *)
Theorem Sprite_getPixel_after_move w this s newOrigin x y :
  wf w → heap w this = DSprite s → pixels s ≠ [] →
  ∃ w', Sprite_move this newOrigin w = (Ok tt, w') ∧
        obj_getPixel (heap w' this)
                     (x + (p_x newOrigin - p_x (_origin s)))
                     (y + (p_y newOrigin - p_y (_origin s)))
        = Sprite_getPixel s x y.
Proof.
  intros W Hs Hne.
  destruct (Sprite_move_run w this s newOrigin W Hs Hne)
    as (opp & w' & Hrun & _ & _ & Hthis & _).
  exists w'. split; [done|]. rewrite Hthis. simpl.
  unfold Sprite_getPixel, Sprite_origin. simpl.
  replace (x + (p_x newOrigin - p_x (_origin s)) - p_x newOrigin)
    with (x - p_x (_origin s)) by lia.
  replace (y + (p_y newOrigin - p_y (_origin s)) - p_y newOrigin)
    with (y - p_y (_origin s)) by lia.
  done.
Qed.

Lemma Sprite_getPixel_after_move_witness :
  let w := World_init (fun _ => DSprite square_sprite) in
  wf w ∧
  ∃ w', Sprite_move 0%nat (mkPoint 1 5 7) w = (Ok tt, w') ∧
        obj_getPixel (heap w' 0%nat) 6 7 = Ok (VString "#300").
Proof.
  intros w. split; [apply wf_init|].
  destruct (Sprite_getPixel_after_move w 0%nat square_sprite (mkPoint 1 5 7) 1 0
              (wf_init _) eq_refl) as (w' & Hrun & Hpx); [discriminate|].
  exists w'. split; [done|]. exact Hpx.
Defined.

Lemma elem_of_sprite_box_coords s x y :
  (x, y) ∈ sprite_box_coords s ↔
  in_box (_origin s) (length (default [] (pixels s !! 0%nat))) (length (pixels s)) x y.
Proof.
  unfold sprite_box_coords, sprite_opposite, in_box.
  rewrite elem_of_rect_coords. unfold between. simpl. lia.
Qed.

(** X8.  Only the last move is remembered.  After [move(a)] and [move(b)]
    with no draw in between, [lastBoundingBox] is the box at [a], and
    [changedPixels()] yields exactly the Points of the boxes at [a] and at
    [b]: of the box at the first origin, only what lies in these two. *)
Theorem Sprite_move_twice w this s a b :
  wf w → heap w this = DSprite s → pixels s ≠ [] →
  let cols := length (default [] (pixels s !! 0%nat)) in
  let rows := length (pixels s) in
  ∃ opposite w2 l w3,
    (Sprite_move this a ;;; Sprite_move this b) w = (Ok tt, w2) ∧
    heap w2 this = DSprite (mkSprite b (palette s) (pixels s) true
                              (Some (BoundingRect a opposite))) ∧
    at_ opposite = (p_x a + Z.of_nat cols, p_y a + Z.of_nat rows) ∧
    (let* s' := get_sprite this in Sprite_changedPixels s') w2 = (Ok l, w3) ∧
    NoDup (coords l) ∧
    ∀ x y, (x, y) ∈ coords l ↔ in_box a cols rows x y ∨ in_box b cols rows x y.
Proof.
  intros W Hs Hne cols rows.
  destruct (Sprite_move_run w this s a W Hs Hne)
    as (opp1 & w1 & Hrun1 & W1 & _ & Hthis1 & _).
  set (s1 := mkSprite a (palette s) (pixels s) true
               (Some (BoundingRect (_origin s) opp1))) in *.
  destruct (Sprite_move_run w1 this s1 b W1 Hthis1 Hne)
    as (opp2 & w2 & Hrun2 & W2 & Hat2 & Hthis2 & _).
  simpl in Hthis2.
  set (s2 := mkSprite b (palette s) (pixels s) true (Some (BoundingRect a opp2))) in *.
  destruct (Sprite_changedPixels_produces (heap w2) s2 Hne w2 W2 eq_refl)
    as (l & w3 & Hl & _ & _ & Hc & _).
  exists opp2, w2, l, w3. split; [by rewrite (bind_run _ _ _ _ _ Hrun1)|].
  split; [done|]. split; [done|]. split.
  { assert (Hget : get_sprite this w2 = (Ok s2, w2))
      by (unfold get_sprite; by rewrite Hthis2).
    by rewrite (bind_run _ _ _ _ _ Hget). }
  rewrite Hc. unfold sprite_changed_coords. simpl. split; [apply uniqc_NoDup|].
  intros x y. rewrite uniqc_elem, elem_of_app, elem_of_sprite_box_coords.
  rewrite elem_of_rect_coords, Hat2. unfold sprite_opposite, between, in_box. simpl.
  fold cols rows. lia.
Qed.

Lemma Sprite_move_twice_witness :
  let w := World_init (fun _ => DSprite square_sprite) in
  wf w ∧
  ∃ w2 l w3,
    (Sprite_move 0%nat (mkPoint 1 10 10) ;;; Sprite_move 0%nat (mkPoint 2 20 20)) w
      = (Ok tt, w2) ∧
    (let* s' := get_sprite 0%nat in Sprite_changedPixels s') w2 = (Ok l, w3) ∧
    ((0, 0) ∉ coords l) ∧ ((10, 10) ∈ coords l) ∧ ((21, 21) ∈ coords l).
Proof.
  intros w. split; [apply wf_init|].
  destruct (Sprite_move_twice w 0%nat square_sprite (mkPoint 1 10 10) (mkPoint 2 20 20)
              (wf_init _) eq_refl) as (opp & w2 & l & w3 & Hrun & _ & _ & Hl & _ & Hin);
    [discriminate|].
  exists w2, l, w3. split; [done|]. split; [done|].
  rewrite !Hin. unfold in_box. simpl. lia.
Defined.

(** X9.  A bitmap whose first row is empty is harmless, unlike a bitmap
    with no row: [boundingBox] returns, [changedPixels()] is the empty
    array and [getPixel] is [false] everywhere. *)
Theorem Sprite_no_columns w rows origin pal x y :
  wf w →
  let s := Sprite_new ([] :: rows) origin pal in
  ∃ opposite w1 w2,
    Sprite_boundingBox s w = (Ok (BoundingRect origin opposite), w1) ∧
    p_x opposite = p_x origin ∧
    Sprite_changedPixels s w = (Ok [], w2) ∧
    Sprite_getPixel s x y = Ok VFalse.
Proof.
  intros W s.
  destruct (Sprite_boundingBox_ok s w W) as (opp & w1 & Hbox & _ & _ & Hat & _);
    [discriminate|].
  destruct (Sprite_changedPixels_produces (heap w) s ltac:(discriminate) w W eq_refl)
    as (l & w2 & Hl & _ & _ & Hc & _).
  assert (Hx : p_x opp = p_x origin).
  { unfold sprite_opposite in Hat. simpl in Hat. injection Hat as Hx _. lia. }
  exists opp, w1, w2. split; [done|]. split; [done|]. split.
  - rewrite Hl. destruct l as [|p l]; [done|]. exfalso.
    assert (Hp : (p_x p, p_y p) ∈ sprite_box_coords s).
    { change (sprite_box_coords s) with (sprite_changed_coords s). rewrite <- Hc. left. }
    apply elem_of_sprite_box_coords in Hp. unfold in_box in Hp. simpl in Hp. lia.
  - apply Sprite_getPixel_outside; [discriminate|]. simpl. lia.
Qed.

Lemma Sprite_no_columns_witness :
  wf (World_init (fun _ => DBackground VFalse)) ∧
  ∃ w2, Sprite_changedPixels (Sprite_new [[]; [1; 2]] (mkPoint 0 3 3) ∅)
          (World_init (fun _ => DBackground VFalse)) = (Ok [], w2).
Proof.
  split; [apply wf_init|].
  destruct (Sprite_no_columns (World_init (fun _ => DBackground VFalse)) [[1; 2]]
              (mkPoint 0 3 3) ∅ 0 0 (wf_init _)) as (opp & w1 & w2 & _ & _ & H & _).
  by exists w2.
Defined.

(** ** Layers *)

Lemma obj_getPixel_set_stale b d x y :
  obj_getPixel (obj_set_stale b d) x y = obj_getPixel d x y.
Proof. by destruct d. Qed.

Lemma only_cleared_refl h : only_cleared h h.
Proof. intros o. by left. Qed.

Lemma only_cleared_trans h1 h2 h3 :
  only_cleared h1 h2 → only_cleared h2 h3 → only_cleared h1 h3.
Proof.
  intros H12 H23 o. destruct (H23 o) as [-> | ->], (H12 o) as [-> | ->]; auto.
  right. by destruct (h1 o).
Qed.

Lemma only_cleared_getPixel h h' o x y :
  only_cleared h h' → obj_getPixel (h' o) x y = obj_getPixel (h o) x y.
Proof.
  intros H. destruct (H o) as [-> | ->]; [done|apply obj_getPixel_set_stale].
Qed.

Lemma only_cleared_clear_stale o w : only_cleared (heap w) (heap (clear_stale o w)).
Proof.
  intros o'. simpl. unfold upd. destruct (Nat.eqb_spec o' o) as [->|]; auto.
Qed.

(** The two ways [getPixel] of a Layer returns. *)
Lemma Layer_getPixel_loop_inv objs : ∀ w x y c w',
  Layer_getPixel_loop objs x y w = (Ok c, w') →
  (Forall (transparent_at w x y) objs ∧ c = VFalse ∧ w' = w) ∨
  (∃ pre o post, objs = pre ++ o :: post ∧ Forall (transparent_at w x y) pre ∧
                 obj_getPixel (heap w o) x y = Ok c ∧ truthy c = true ∧
                 w' = clear_stale o w).
Proof.
  induction objs as [|o objs IH]; intros w x y c w'; simpl.
  - intros [= <- <-]. left. by repeat split.
  - unfold bind, read, lift.
    destruct (obj_getPixel (heap w o) x y) as [v|e] eqn:Hv; [|done].
    destruct (truthy v) eqn:Ht.
    + simpl. intros [= <- <-]. right. exists [], o, objs. by repeat split.
    + intros Hrest. destruct (IH _ _ _ _ _ Hrest) as [(Hall & -> & ->) | Hhit].
      * left. split; [|done]. constructor; [by exists v|done].
      * destruct Hhit as (pre & o' & post & -> & Hpre & Hc & Htc & ->).
        right. exists (o :: pre), o', post. split; [done|].
        split; [constructor; [by exists v|done]|done].
Qed.

Lemma Layer_getPixel_loop_throw pre o post e w x y :
  Forall (transparent_at w x y) pre →
  obj_getPixel (heap w o) x y = Throw e →
  Layer_getPixel_loop (pre ++ o :: post) x y w = (Throw e, w).
Proof.
  intros Hpre He. induction Hpre as [|o' pre (v & Hv & Hf) _ IH]; simpl.
  - unfold bind, read, lift. by rewrite He.
  - unfold bind, read, lift. rewrite Hv, Hf. apply IH.
Qed.

(** The loop reads nothing of the context. *)
Lemma Layer_getPixel_loop_emit objs e : ∀ w x y,
  Layer_getPixel_loop objs x y (emit e w) =
  ((Layer_getPixel_loop objs x y w).1, emit e (Layer_getPixel_loop objs x y w).2).
Proof.
  induction objs as [|o objs IH]; intros w x y; simpl; [done|].
  unfold bind, read, lift. simpl.
  destruct (obj_getPixel (heap w o) x y) as [v|e']; [|done].
  destruct (truthy v); [done|]. apply IH.
Qed.

(** X10.  A fault in [getPixel] of an object reached before any hit is the
    fault of the Layer's [getPixel], which changes nothing; [drawPixel] then
    throws as well, after it has assigned the blend mode and before any
    fill.  An object that hits first hides the fault. *)
Theorem Layer_getPixel_throws w l x y pre o post :
  objects l = pre ++ o :: post →
  Forall (transparent_at w x y) pre →
  obj_getPixel (heap w o) x y = Throw TypeError →
  Layer_getPixel l x y w = (Throw TypeError, w) ∧
  (∀ p, at_ p = (x, y) →
        Layer_drawPixel l p w =
          (Throw TypeError,
           emit (SetGlobalCompositeOperation
                   (js_or (blendMode l) (VString "source-over"))) w)) ∧
  (∀ front c, obj_getPixel (heap w front) x y = Ok c → truthy c = true →
              ∃ w', Layer_getPixel (mkLayer (front :: objects l) (blendMode l)) x y w
                    = (Ok c, w')).
Proof.
  intros Hobjs Hpre Ho. unfold Layer_getPixel.
  pose proof (Layer_getPixel_loop_throw pre o post TypeError w x y Hpre Ho) as Hthrow.
  rewrite <- Hobjs in Hthrow. split; [done|]. split.
  - intros p [= Hx Hy]. unfold Layer_drawPixel, Layer_getPixel, bind, modify.
    rewrite Hx, Hy, Layer_getPixel_loop_emit, Hthrow. done.
  - intros front c Hc Ht. exists (clear_stale front w). simpl.
    apply (Layer_getPixel_loop_hit [] front (objects l) c w x y); [constructor|done..].
Qed.

Lemma Layer_getPixel_throws_witness :
  let w := World_init faulty_then_red in
  Layer_getPixel (mkLayer [0%nat; 1%nat] VFalse) 3 3 w = (Throw TypeError, w) ∧
  ∃ w', Layer_getPixel (mkLayer [1%nat; 0%nat; 1%nat] VFalse) 3 3 w
        = (Ok (VString "#F00"), w').
Proof.
  intros w.
  destruct (Layer_getPixel_throws w (mkLayer [0%nat; 1%nat] VFalse) 3 3 [] 0%nat [1%nat]
              eq_refl (Forall_nil_2 _) eq_refl) as (H1 & _ & H3).
  split; [exact H1|]. apply (H3 1%nat (VString "#F00")); reflexivity.
Defined.

(** X11.  Asking a Layer for the same pixel again gives the same colour and
    changes no object any further. *)
Theorem Layer_getPixel_twice w l x y c w1 :
  Layer_getPixel l x y w = (Ok c, w1) →
  ∃ w2, Layer_getPixel l x y w1 = (Ok c, w2) ∧
        (∀ o, heap w2 o = heap w1 o) ∧
        points w2 = points w1 ∧ next_point w2 = next_point w1 ∧
        surface w2 = surface w1.
Proof.
  unfold Layer_getPixel. intros H.
  destruct (Layer_getPixel_loop_inv _ _ _ _ _ _ H) as [(Hall & -> & ->) | Hhit].
  - exists w. by rewrite H.
  - destruct Hhit as (pre & o & post & Hobjs & Hpre & Hc & Ht & ->).
    assert (Hsame : ∀ o', obj_getPixel (heap (clear_stale o w) o') x y
                          = obj_getPixel (heap w o') x y).
    { intros o'. apply only_cleared_getPixel, only_cleared_clear_stale. }
    exists (clear_stale o (clear_stale o w)). rewrite Hobjs. split.
    + apply Layer_getPixel_loop_hit; [|by rewrite Hsame|done].
      eapply Forall_impl; [exact Hpre|]. intros o' (v & Hv & Hf).
      exists v. by rewrite Hsame.
    + split; [|done]. intros o'. simpl. unfold upd.
      destruct (Nat.eqb_spec o' o) as [->|]; [|done].
      rewrite Nat.eqb_refl. by destruct (heap w o).
Qed.

Lemma Layer_getPixel_twice_witness :
  let w := World_init two_sprites in
  let l := mkLayer [0%nat; 1%nat] VFalse in
  ∃ w1 w2, Layer_getPixel l 3 3 w = (Ok (VString "#F00"), w1) ∧
           Layer_getPixel l 3 3 w1 = (Ok (VString "#F00"), w2).
Proof.
  intros w l.
  destruct (Layer_getPixel_twice w l 3 3 (VString "#F00") (clear_stale 0%nat w) eq_refl)
    as (w2 & H2 & _).
  exists (clear_stale 0%nat w), w2. split; [reflexivity|exact H2].
Defined.

Lemma Layer_getPixel_loop_returns objs : ∀ w x y,
  Forall (fun o => ∃ v, obj_getPixel (heap w o) x y = Ok v) objs →
  ∃ c w', Layer_getPixel_loop objs x y w = (Ok c, w') ∧
          only_cleared (heap w) (heap w') ∧
          points w' = points w ∧ next_point w' = next_point w ∧
          surface w' = surface w.
Proof.
  induction objs as [|o objs IH]; intros w x y Hall; simpl.
  - exists VFalse, w. split; [done|]. split; [apply only_cleared_refl|done].
  - apply Forall_cons in Hall as [(v & Hv) Hall]. unfold bind, read, lift. rewrite Hv.
    destruct (truthy v); [|by apply IH].
    exists v, (clear_stale o w). split; [done|].
    split; [apply only_cleared_clear_stale|done].
Qed.

Lemma Layer_drawPixel_returns l p w :
  Forall (fun o => ∃ v, obj_getPixel (heap w o) (p_x p) (p_y p) = Ok v) (objects l) →
  ∃ c w', Layer_drawPixel l p w = (Ok tt, w') ∧
          (Layer_getPixel l (p_x p) (p_y p) w).1 = Ok c ∧
          only_cleared (heap w) (heap w') ∧
          points w' = points w ∧ next_point w' = next_point w ∧
          surface w' = surface w ++ layer_events p (l, c).
Proof.
  intros Hall.
  destruct (Layer_getPixel_loop_returns _ _ _ _ Hall) as (c & w1 & Hc & Hh & Hp & Hn & Hs).
  exists c. eexists. unfold Layer_drawPixel, Layer_getPixel, bind, modify.
  rewrite Layer_getPixel_loop_emit, Hc. simpl. split; [reflexivity|]. simpl.
  split; [done|]. split; [done|]. split; [done|]. split; [done|].
  rewrite Hs, <- !app_assoc. done.
Qed.

(** X12.  When [getPixel] of every member returns at the pixel, [drawPixel]
    of a Layer returns after exactly three context operations: the blend
    mode ("source-over" unless the Layer has one), the fill style (the colour
    [getPixel] of the Layer gives in that state, "transparent" when it gives
    [false]) and a 1×1 [fillRect] at the pixel.  Objects are at most
    un-staled and the Point cache is as it was. *)
Theorem Layer_drawPixel_spec l p w :
  Forall (fun o => ∃ v, obj_getPixel (heap w o) (p_x p) (p_y p) = Ok v) (objects l) →
  ∃ c w',
    Layer_drawPixel l p w = (Ok tt, w') ∧
    (Layer_getPixel l (p_x p) (p_y p) w).1 = Ok c ∧
    surface w' = surface w ++
      [ SetGlobalCompositeOperation (js_or (blendMode l) (VString "source-over"));
        SetFillStyle (js_or c (VString "transparent"));
        FillRect (p_x p) (p_y p) 1 1 ] ∧
    only_cleared (heap w) (heap w') ∧
    points w' = points w ∧ next_point w' = next_point w.
Proof.
  intros Hall.
  destruct (Layer_drawPixel_returns l p w Hall) as (c & w' & H & Hc & Hh & Hp & Hn & Hs).
  by exists c, w'.
Qed.

Lemma Layer_drawPixel_spec_witness :
  let w := World_init two_sprites in
  ∃ w', Layer_drawPixel (mkLayer [0%nat; 1%nat] VFalse) (mkPoint 0 9 9) w = (Ok tt, w') ∧
        surface w' = [ SetGlobalCompositeOperation (VString "source-over");
                       SetFillStyle (VString "transparent");
                       FillRect 9 9 1 1 ].
Proof.
  intros w.
  destruct (Layer_drawPixel_spec (mkLayer [0%nat; 1%nat] VFalse) (mkPoint 0 9 9) w)
    as (c & w' & Hrun & Hc & Hs & _).
  - repeat constructor; by eexists.
  - exists w'. split; [done|]. rewrite Hs. simpl in Hc. injection Hc as <-. reflexivity.
Defined.

(** ** Canvas *)

Lemma paints_has_rows d : paints d → has_rows d.
Proof.
  destruct d as [s|c]; [|done]. intros Hp Hnil.
  destruct (Hp (p_x (_origin s)) (p_y (_origin s))) as [v Hv].
  simpl in Hv. unfold Sprite_getPixel, Sprite_origin in Hv.
  rewrite !Z.sub_diag, Hnil in Hv. simpl in Hv. discriminate.
Qed.

(** X13.  [changedPixels()] of a Canvas whose stale Sprites all have a
    first bitmap row returns normally and changes no object; it holds no
    Point object and no coordinate twice, and a coordinate is in it exactly
    when [changedPixels()] of some layer yields it. *)
Theorem Canvas_changedPixels_spec w c :
  wf w →
  (∀ l o, l ∈ layers c → o ∈ objects l → obj_stale (heap w o) = true →
          has_rows (heap w o)) →
  ∃ px w',
    Canvas_changedPixels c w = (Ok px, w') ∧
    heap w' = heap w ∧ surface w' = surface w ∧ cache_le w w' ∧
    NoDup (map pid px) ∧ NoDup (coords px) ∧
    ∀ xy, xy ∈ coords px ↔
          ∃ l pl wl, l ∈ layers c ∧ Layer_changedPixels l w = (Ok pl, wl) ∧
                     xy ∈ coords pl.
Proof.
  intros W Hrows.
  destruct (Canvas_changedPixels_produces (heap w) c Hrows w W eq_refl)
    as (px & w' & Hrun & _ & [Hle Hh Hs] & Hc & _).
  exists px, w'. split; [done|]. split; [done|]. split; [done|]. split; [done|].
  split; [|split].
  - apply flatMapUniq_inv in Hrun as (ys & _ & ->). apply uniq_NoDup.
  - rewrite Hc. apply uniqc_NoDup.
  - intros xy. rewrite Hc. unfold canvas_changed_coords.
    rewrite uniqc_elem, list_elem_of_bind. split.
    + intros (l & Hin & Hl).
      destruct (Layer_changedPixels_produces (heap w) l (fun o => Hrows l o Hl) w W eq_refl)
        as (pl & wl & Hpl & _ & _ & Hcl & _).
      exists l, pl, wl. by rewrite Hcl.
    + intros (l & pl & wl & Hl & Hpl & Hin). exists l. split; [|done].
      by rewrite <- (produces_det _ _ _ _ _ _
                      (Layer_changedPixels_produces (heap w) l (fun o => Hrows l o Hl))
                      W eq_refl Hpl).
Qed.

Lemma Canvas_changedPixels_spec_witness :
  let w := World_init still_and_moved in
  let c := mkCanvas [mkLayer [0%nat] VFalse; mkLayer [1%nat] VFalse] in
  wf w ∧ ∃ px w', Canvas_changedPixels c w = (Ok px, w') ∧ NoDup (coords px).
Proof.
  intros w c. split; [apply wf_init|].
  destruct (Canvas_changedPixels_spec w c (wf_init _)) as (px & w' & H & _ & _ & _ & _ & N & _).
  - intros l o _ _ _. by destruct o.
  - by exists px, w'.
Defined.

Lemma Layer_changedPixels_none l w :
  (∀ o, o ∈ objects l → obj_stale (heap w o) = false) →
  Layer_changedPixels l w = (Ok [], w).
Proof.
  intros Hnone. unfold Layer_changedPixels, bind, read.
  assert (filter (fun o => obj_stale (heap w o) = true) (objects l) = []) as ->; [|done].
  induction (objects l) as [|o os IH]; [done|].
  rewrite filter_cons. rewrite (Hnone o) by left. simpl.
  apply IH. intros o' Ho'. apply Hnone. by right.
Qed.

Lemma Canvas_draw_idle c w :
  (∀ l o, l ∈ layers c → o ∈ objects l → obj_stale (heap w o) = false) →
  Canvas_changedPixels c w = (Ok [], w) ∧ Canvas_draw c w = (Ok tt, w).
Proof.
  intros Hnone.
  assert (Hpx : Canvas_changedPixels c w = (Ok [], w)).
  { unfold Canvas_changedPixels, flatMapUniq.
    assert (Hflat : flatMap Layer_changedPixels (layers c) w = (Ok [], w)).
    { induction (layers c) as [|l ls IH]; [done|]. simpl.
      rewrite (bind_run _ _ _ _ _ (Layer_changedPixels_none l w
                                     (fun o => Hnone l o (list_elem_of_here _ _)))).
      rewrite (bind_run _ _ _ _ _
                 (IH (fun l' o Hl' => Hnone l' o (list_elem_of_further _ _ _ Hl')))).
      done. }
    by rewrite (bind_run _ _ _ _ _ Hflat). }
  split; [done|]. unfold Canvas_draw. by rewrite (bind_run _ _ _ _ _ Hpx).
Qed.

(** X14.  When no object of the Canvas is stale, [changedPixels()] is empty
    and [draw()] does nothing at all: no Point is allocated, no object
    changes and the context receives nothing. *)
Theorem Canvas_draw_nothing_stale c w :
  (∀ l o, l ∈ layers c → o ∈ objects l → obj_stale (heap w o) = false) →
  Canvas_changedPixels c w = (Ok [], w) ∧ Canvas_draw c w = (Ok tt, w).
Proof. apply Canvas_draw_idle. Qed.

Lemma Canvas_draw_nothing_stale_witness :
  let w := World_init (fun _ => DBackground (VString "#000")) in
  Canvas_draw (mkCanvas [mkLayer [0%nat; 1%nat] VFalse]) w = (Ok tt, w).
Proof.
  intros w.
  apply (Canvas_draw_nothing_stale (mkCanvas [mkLayer [0%nat; 1%nat] VFalse]) w).
  reflexivity.
Defined.

Lemma Canvas_drawPixel_returns p ls : ∀ w,
  (∀ l o, l ∈ ls → o ∈ objects l → paints (heap w o)) →
  ∃ cs w', forEach (fun l => Layer_drawPixel l p) ls w = (Ok tt, w') ∧
           only_cleared (heap w) (heap w') ∧
           points w' = points w ∧ next_point w' = next_point w ∧
           length cs = length ls ∧
           surface w' = surface w ++ (zip ls cs ≫= layer_events p).
Proof.
  induction ls as [|l ls IH]; intros w Hp.
  - exists [], w. simpl. rewrite app_nil_r. split; [done|].
    split; [apply only_cleared_refl|done].
  - destruct (Layer_drawPixel_returns l p w) as (c & w1 & H1 & _ & Hh1 & Hp1 & Hn1 & Hs1).
    { apply Forall_forall. intros o Ho. apply (Hp l o); [left|done]. }
    destruct (IH w1) as (cs & w' & H' & Hh' & Hp' & Hn' & Hlen & Hs').
    { intros l' o Hl' Ho x y. rewrite (only_cleared_getPixel _ _ _ _ _ Hh1).
      apply (Hp l' o); [by right|done]. }
    exists (c :: cs), w'. simpl. rewrite (bind_run _ _ _ _ _ H1).
    split; [done|]. split; [by eapply only_cleared_trans|].
    split; [congruence|]. split; [congruence|]. split; [by rewrite Hlen|].
    rewrite Hs', Hs1, <- app_assoc. done.
Qed.

Lemma forEach_drawPixel_returns c px : ∀ w,
  (∀ l o, l ∈ layers c → o ∈ objects l → paints (heap w o)) →
  ∃ css w', forEach (Canvas_drawPixel c) px w = (Ok tt, w') ∧
            only_cleared (heap w) (heap w') ∧
            points w' = points w ∧ next_point w' = next_point w ∧
            length css = length px ∧
            Forall (fun cs => length cs = length (layers c)) css ∧
            surface w' = surface w ++ draw_events (layers c) px css.
Proof.
  induction px as [|p px IH]; intros w Hp.
  - exists [], w. unfold draw_events. simpl. rewrite app_nil_r. split; [done|].
    split; [apply only_cleared_refl|]. by repeat split.
  - destruct (Canvas_drawPixel_returns p (layers c) w Hp)
      as (cs & w1 & H1 & Hh1 & Hp1 & Hn1 & Hlen1 & Hs1).
    destruct (IH w1) as (css & w' & H' & Hh' & Hp' & Hn' & Hlen & Hall & Hs').
    { intros l o Hl Ho x y. rewrite (only_cleared_getPixel _ _ _ _ _ Hh1).
      by apply (Hp l o). }
    exists (cs :: css), w'. simpl. unfold Canvas_drawPixel at 1.
    rewrite (bind_run _ _ _ _ _ H1).
    split; [done|]. split; [by eapply only_cleared_trans|].
    split; [congruence|]. split; [congruence|]. split; [by rewrite Hlen|].
    split; [by constructor|].
    rewrite Hs', Hs1, <- app_assoc. done.
Qed.

Lemma length_draw_events ls px : ∀ css,
  length css = length px → Forall (fun cs => length cs = length ls) css →
  length (draw_events ls px css) = (3 * length ls * length px)%nat.
Proof.
  unfold draw_events. induction px as [|p px IH]; intros [|cs css] Hlen Hall; try done.
  apply Forall_cons in Hall as [Hcs Hall]. simpl in Hlen.
  simpl zip. rewrite bind_cons, length_app, IH by (done || lia). simpl.
  assert (length (zip ls cs ≫= layer_events p) = (3 * length ls)%nat) as ->; [|lia].
  clear -Hcs. revert cs Hcs. induction ls as [|l ls IHl]; intros [|c cs] Hcs; try done.
  simpl in *. rewrite IHl by lia. lia.
Qed.

Lemma FillRect_in_draw_events ls px x y a b : ∀ css,
  FillRect x y a b ∈ draw_events ls px css → (x, y) ∈ coords px ∧ a = 1 ∧ b = 1.
Proof.
  unfold draw_events. intros css ([p cs] & Hin & Hzip)%list_elem_of_bind.
  apply list_elem_of_bind in Hin as ([l c] & Hin & _). simpl in Hin.
  assert (x = p_x p ∧ y = p_y p ∧ a = 1 ∧ b = 1) as (-> & -> & -> & ->).
  { unfold layer_events in Hin.
    repeat (apply elem_of_cons in Hin as [Hin|Hin]; [try done|]).
    - by injection Hin.
    - by apply elem_of_nil in Hin. }
  split; [|done]. apply list_elem_of_fmap. exists p. split; [done|].
  revert css Hzip. clear. induction px as [|q px IH]; intros [|cs' css] H;
    try by apply elem_of_nil in H.
  apply elem_of_cons in H as [[= -> _]|H]; [left|right; by eapply IH].
Qed.

(** X15.  [draw()] on a Canvas all of whose objects have a [getPixel] that
    never throws: it returns normally; the context receives, for each
    changed Point in turn and each layer in turn, the three operations of
    [drawPixel], that is three times the number of layers times the number
    of changed Points, every [fillRect] being 1×1 at a changed Point.  The
    only change to an object is [false] assigned to its [stale]: [draw()]
    never makes an object stale and never moves one.  The Point cache keeps
    its entries. *)
Theorem Canvas_draw_spec c w :
  wf w →
  (∀ l o, l ∈ layers c → o ∈ objects l → paints (heap w o)) →
  ∃ px w1 css w',
    Canvas_changedPixels c w = (Ok px, w1) ∧
    Canvas_draw c w = (Ok tt, w') ∧
    only_cleared (heap w) (heap w') ∧
    cache_le w w' ∧ wf w' ∧
    surface w' = surface w ++ draw_events (layers c) px css ∧
    length (draw_events (layers c) px css) = (3 * length (layers c) * length px)%nat ∧
    (∀ x y a b, FillRect x y a b ∈ draw_events (layers c) px css →
                (x, y) ∈ coords px ∧ a = 1 ∧ b = 1).
Proof.
  intros W Hp.
  destruct (Canvas_changedPixels_produces (heap w) c) with (w := w)
    as (px & w1 & Hpx & W1 & [Hle Hh Hs] & _); [|done|done|].
  { intros l o Hl Ho _. by apply paints_has_rows, (Hp l o). }
  destruct (forEach_drawPixel_returns c px w1)
    as (css & w' & Hdraw & Hh' & Hp' & Hn' & Hlen & Hall & Hs').
  { rewrite Hh. exact Hp. }
  exists px, w1, css, w'. split; [done|]. split.
  { unfold Canvas_draw. by rewrite (bind_run _ _ _ _ _ Hpx). }
  split; [by rewrite <- Hh|]. split; [|split; [|split; [|split]]].
  - intros x y p Hc. apply Hle in Hc. unfold cache_at in *. by rewrite Hp'.
  - by apply (wf_same_cache w1).
  - by rewrite Hs', Hs.
  - by apply length_draw_events.
  - intros x y a b. apply FillRect_in_draw_events.
Qed.

Lemma Circle_paints origin pal : paints (DSprite (Circle_new origin pal)).
Proof.
  intros x y. apply (Sprite_getPixel_total _ 10); [discriminate|reflexivity|].
  repeat constructor.
Qed.

Lemma Canvas_draw_spec_witness :
  wf (World_init source_heap) ∧
  ∃ w', Canvas_draw source_canvas (World_init source_heap) = (Ok tt, w').
Proof.
  split; [apply wf_init|].
  destruct (Canvas_draw_spec source_canvas (World_init source_heap) (wf_init _))
    as (px & w1 & css & w' & _ & Hrun & _).
  - intros l o _ _. destruct o as [|[|o]]; simpl.
    + intros x y. by eexists.
    + apply Circle_paints.
    + apply Circle_paints.
  - by exists w'.
Defined.

(** ** A Sprite over a Background, frame after frame *)

Lemma Layer_drawPixel_single_exact o mode p w v :
  obj_getPixel (heap w o) (p_x p) (p_y p) = Ok v →
  ∃ w1, Layer_drawPixel (mkLayer [o] mode) p w = (Ok tt, w1) ∧
        surface w1 = surface w ++ layer_events p (mkLayer [o] mode, v) ∧
        points w1 = points w ∧ next_point w1 = next_point w ∧
        (∀ o', o' ≠ o → heap w1 o' = heap w o') ∧
        heap w1 o = if truthy v then obj_set_stale false (heap w o) else heap w o.
Proof.
  intros Hv. unfold Layer_drawPixel, Layer_getPixel, bind, modify, read, lift. simpl.
  unfold bind, modify, read, lift. simpl. rewrite Hv.
  destruct (truthy v) eqn:Ht; simpl; eexists; (split; [reflexivity|]); simpl.
  - rewrite <- !app_assoc. simpl.
    split; [done|]. split; [done|]. split; [done|].
    split; [intros o' Hne; by apply upd_ne|]. apply upd_eq.
  - rewrite <- !app_assoc. simpl. unfold layer_events, js_or. simpl. rewrite Ht.
    done.
Qed.

Lemma hits_in_changed s x y v :
  Sprite_getPixel s x y = Ok v → truthy v = true → pixels s ≠ [] →
  (x, y) ∈ sprite_changed_coords s.
Proof.
  intros Hv Ht Hne.
  assert (Hbox : (x, y) ∈ sprite_box_coords s).
  { apply elem_of_sprite_box_coords. unfold in_box.
    destruct (decide (0 ≤ x - p_x (_origin s)
                        < Z.of_nat (length (default [] (pixels s !! 0%nat))) ∧
                      0 ≤ y - p_y (_origin s) < Z.of_nat (length (pixels s))))
      as [Hin|Hout]; [lia|].
    rewrite (Sprite_getPixel_outside s x y Hne Hout) in Hv. injection Hv as <-. done. }
  unfold sprite_changed_coords. destruct (lastBoundingBox s); [|done].
  rewrite uniqc_elem, elem_of_app. by right.
Qed.

Section Frames.

Variables (bg top : loc) (color bgmode topmode : value) (sprite : Sprite).

Let canvas : Canvas := mkCanvas [mkLayer [bg] bgmode; mkLayer [top] topmode].

Hypothesis distinct : bg ≠ top.
Hypothesis sprite_paints : paints (DSprite sprite).

Lemma Canvas_drawPixel_scene_exact p w b :
  heap w bg = DBackground color → heap w top = DSprite (set_stale b sprite) →
  ∃ w1, Canvas_drawPixel canvas p w = (Ok tt, w1) ∧
        heap w1 bg = DBackground color ∧
        heap w1 top = DSprite (set_stale (b && negb (hits sprite p)) sprite) ∧
        points w1 = points w ∧ next_point w1 = next_point w ∧
        surface w1 = surface w ++ frame color bgmode topmode sprite p.
Proof.
  intros Hbg Htop.
  destruct (Layer_drawPixel_single_exact bg bgmode p w color)
    as (w1 & H1 & S1 & P1 & N1 & O1 & B1); [by rewrite Hbg|].
  destruct (sprite_paints (p_x p) (p_y p)) as [v Hv]. simpl in Hv.
  assert (Htop1 : heap w1 top = DSprite (set_stale b sprite)).
  { rewrite O1 by done. done. }
  destruct (Layer_drawPixel_single_exact top topmode p w1 v)
    as (w2 & H2 & S2 & P2 & N2 & O2 & B2); [by rewrite Htop1|].
  exists w2. split; [|split; [|split; [|split; [|split]]]].
  - unfold Canvas_drawPixel, canvas. simpl.
    rewrite (bind_run _ _ _ _ _ H1), (bind_run _ _ _ _ _ H2). done.
  - rewrite O2 by done. rewrite B1, Hbg. by destruct (truthy color).
  - rewrite B2, Htop1. unfold hits. rewrite Hv. simpl.
    destruct (truthy v), b; reflexivity.
  - congruence.
  - congruence.
  - rewrite S2, S1, <- app_assoc. unfold frame, layer_events. simpl. by rewrite Hv.
Qed.

Lemma forEach_drawPixel_scene_exact px : ∀ w b,
  heap w bg = DBackground color → heap w top = DSprite (set_stale b sprite) →
  ∃ w', forEach (Canvas_drawPixel canvas) px w = (Ok tt, w') ∧
        heap w' bg = DBackground color ∧
        heap w' top = DSprite (set_stale (b && negb (existsb (hits sprite) px)) sprite) ∧
        points w' = points w ∧ next_point w' = next_point w ∧
        surface w' = surface w ++ (px ≫= frame color bgmode topmode sprite).
Proof.
  induction px as [|p px IH]; intros w b Hbg Htop.
  - exists w. simpl. rewrite app_nil_r, andb_true_r. done.
  - destruct (Canvas_drawPixel_scene_exact p w b Hbg Htop)
      as (w1 & H1 & Hbg1 & Htop1 & P1 & N1 & S1).
    destruct (IH w1 _ Hbg1 Htop1) as (w' & H' & Hbg' & Htop' & P' & N' & S').
    exists w'. simpl. rewrite (bind_run _ _ _ _ _ H1).
    split; [done|]. split; [done|]. split.
    { rewrite Htop'. do 2 f_equal.
      destruct b, (hits sprite p), (existsb (hits sprite) px); reflexivity. }
    split; [congruence|]. split; [congruence|].
    rewrite S', S1, <- app_assoc. done.
Qed.

(** What the Canvas reports as changed is what the Sprite reports, when it
    is stale. *)
Lemma scene_changed_coords h s :
  h bg = DBackground color → h top = DSprite s →
  canvas_changed_coords h canvas = if stale s then sprite_changed_coords s else [].
Proof.
  intros Hbg Htop. unfold canvas_changed_coords, layer_changed_coords, canvas. simpl.
  rewrite !filter_cons, !filter_nil, Hbg, Htop. simpl.
  destruct (stale s) eqn:Hst; simpl.
  - rewrite !app_nil_r, Htop. simpl.
    rewrite (uniqc_id (sprite_changed_coords s)), uniqc_id;
      try apply (NoDup_obj_changed_coords (DSprite s)). done.
  - done.
Qed.

Lemma frames_coords px : ∀ px',
  coords px = coords px' →
  px ≫= frame color bgmode topmode sprite = px' ≫= frame color bgmode topmode sprite.
Proof.
  induction px as [|p px IH]; intros [|p' px'] H; try done.
  simpl in H. assert (Hp : at_ p = at_ p') by congruence.
  assert (Hpx : coords px = coords px') by congruence.
  rewrite !bind_cons, (IH px' Hpx). f_equal.
  unfold frame. injection Hp as -> ->. done.
Qed.

End Frames.

(** X16.  A stale Sprite alone on a layer over a Background's layer, with a
    [getPixel] that never throws.  [draw()] sends the six operations of
    [frame] for each Point the Sprite reports as changed.  If the Sprite
    shows a colour at some pixel, the draw leaves it not stale, and a second
    [draw()] right after does nothing.  If it shows no colour anywhere, it
    is still stale afterwards, and every further [draw()] sends the same
    operations again. *)
Theorem Canvas_draw_settles w bg top color bgmode topmode s :
  wf w → bg ≠ top →
  heap w bg = DBackground color → heap w top = DSprite s →
  stale s = true → paints (DSprite s) →
  let canvas := mkCanvas [mkLayer [bg] bgmode; mkLayer [top] topmode] in
  ∃ px w1 w',
    Canvas_changedPixels canvas w = (Ok px, w1) ∧
    coords px = sprite_changed_coords s ∧
    Canvas_draw canvas w = (Ok tt, w') ∧
    surface w' = surface w ++ (px ≫= frame color bgmode topmode s) ∧
    ((∃ x y v, Sprite_getPixel s x y = Ok v ∧ truthy v = true) →
     heap w' top = DSprite (set_stale false s) ∧
     Canvas_draw canvas w' = (Ok tt, w')) ∧
    ((∀ x y v, Sprite_getPixel s x y = Ok v → truthy v = false) →
     heap w' top = DSprite s ∧
     ∃ w'', Canvas_draw canvas w' = (Ok tt, w'') ∧
            surface w'' = surface w' ++ (px ≫= frame color bgmode topmode s)).
Proof.
  intros W Hdist Hbg Htop Hst Hpaints canvas. subst canvas.
  set (canvas := mkCanvas [mkLayer [bg] bgmode; mkLayer [top] topmode]).
  assert (Hcanvas : canvas = mkCanvas [mkLayer [bg] bgmode; mkLayer [top] topmode])
    by reflexivity.
  clearbody canvas. subst canvas.
  assert (Hne : pixels s ≠ []) by apply (paints_has_rows (DSprite s) Hpaints).
  assert (Heta : ∀ b, b = true → set_stale b s = s).
  { intros b ->. destruct s. simpl in Hst. by subst. }
  assert (Hrows : ∀ w0, heap w0 bg = DBackground color → heap w0 top = DSprite s →
            ∀ l o, l ∈ [mkLayer [bg] bgmode; mkLayer [top] topmode] → o ∈ objects l →
                   obj_stale (heap w0 o) = true → has_rows (heap w0 o)).
  { intros w0 Hbg0 Htop0 l o Hl Ho _. simpl in Hl.
    apply elem_of_cons in Hl as [->|Hl];
      [|apply list_elem_of_singleton in Hl as ->];
      apply list_elem_of_singleton in Ho as ->.
    - by rewrite Hbg0.
    - by rewrite Htop0. }
  destruct (Canvas_changedPixels_produces (heap w)
              (mkCanvas [mkLayer [bg] bgmode; mkLayer [top] topmode])
              (Hrows w Hbg Htop) w W eq_refl)
    as (px & w1 & Hpx & W1 & [Hle1 Hh1 Hs1] & Hc & _).
  rewrite (scene_changed_coords bg top color bgmode topmode (heap w) s Hbg Htop), Hst in Hc.
  destruct (forEach_drawPixel_scene_exact bg top color bgmode topmode s Hdist Hpaints
              px w1 true) as (w' & Hdraw & Hbg' & Htop' & P' & N' & S').
  { by rewrite Hh1. }
  { by rewrite Hh1, Heta. }
  assert (Hrun : Canvas_draw (mkCanvas [mkLayer [bg] bgmode; mkLayer [top] topmode]) w
                 = (Ok tt, w')).
  { unfold Canvas_draw. by rewrite (bind_run _ _ _ _ _ Hpx). }
  exists px, w1, w'. split; [done|]. split; [done|]. split; [done|].
  split; [by rewrite S', Hs1|]. simpl in Htop'. split.
  - intros (x & y & v & Hv & Ht).
    assert (Hhit : existsb (hits s) px = true).
    { pose proof (hits_in_changed s x y v Hv Ht Hne) as Hin. rewrite <- Hc in Hin.
      apply list_elem_of_fmap in Hin as (p & Hp & Hin).
      apply existsb_exists. exists p. split; [by apply list_elem_of_In|].
      unfold hits. injection Hp as -> ->. by rewrite Hv. }
    rewrite Hhit in Htop'. split; [done|].
    apply Canvas_draw_idle. intros l o Hl Ho. simpl in Hl.
    apply elem_of_cons in Hl as [->|Hl];
      [|apply list_elem_of_singleton in Hl as ->];
      apply list_elem_of_singleton in Ho as ->.
    + by rewrite Hbg'.
    + by rewrite Htop'.
  - intros Hnone.
    assert (Hhit : existsb (hits s) px = false).
    { apply not_true_is_false. intros (p & _ & Hp)%existsb_exists. unfold hits in Hp.
      destruct (Hpaints (p_x p) (p_y p)) as [v Hv]. simpl in Hv.
      rewrite Hv in Hp. simpl in Hp. by rewrite (Hnone _ _ _ Hv) in Hp. }
    rewrite Hhit in Htop'. simpl in Htop'. rewrite Heta in Htop' by done.
    split; [done|].
    assert (W' : wf w') by (by apply (wf_same_cache w1)).
    destruct (Canvas_changedPixels_produces (heap w')
                (mkCanvas [mkLayer [bg] bgmode; mkLayer [top] topmode])
                (Hrows w' Hbg' Htop')
                w' W' eq_refl) as (px2 & w2 & Hpx2 & W2 & [Hle2 Hh2 Hs2] & Hc2 & _).
    rewrite (scene_changed_coords bg top color bgmode topmode (heap w') s Hbg' Htop'),
      Hst in Hc2.
    destruct (forEach_drawPixel_scene_exact bg top color bgmode topmode s Hdist Hpaints
                px2 w2 true) as (w'' & Hdraw2 & _ & _ & _ & _ & S'').
    { by rewrite Hh2. }
    { by rewrite Hh2, Heta. }
    exists w''. split.
    + unfold Canvas_draw. by rewrite (bind_run _ _ _ _ _ Hpx2).
    + rewrite S'', Hs2. f_equal. apply frames_coords. congruence.
Qed.

Lemma Canvas_draw_settles_witness :
  let s := Circle_new (mkPoint 0 100 95)
             (<[0 := VString "#000"]> (<[1 := VString "#00FF00"]> ∅)) in
  wf (World_init demo_heap) ∧
  ∃ w', Canvas_draw demo_canvas (World_init demo_heap) = (Ok tt, w') ∧
        heap w' 1%nat = DSprite (set_stale false s) ∧
        Canvas_draw demo_canvas w' = (Ok tt, w').
Proof.
  intros s. split; [apply wf_init|].
  destruct (Canvas_draw_settles (World_init demo_heap) 0%nat 1%nat (VString "#000")
              VFalse (VString "lighter") s (wf_init _))
    as (px & w1 & w' & _ & _ & Hrun & _ & Hvis & _).
  - discriminate.
  - reflexivity.
  - reflexivity.
  - reflexivity.
  - apply Circle_paints.
  - exists w'. split; [done|]. apply Hvis. exists 100, 95, (VString "#000").
    split; reflexivity.
Defined.

(** ** The boundingBox getters of Layer and Canvas *)

Lemma bind_throw_run {A B} (m : M A) (k : A -> M B) w e w' :
  m w = (Throw e, w') → bind m k w = (Throw e, w').
Proof. intros H. unfold bind. by rewrite H. Qed.

Lemma has_undefined_throws box :
  has_undefined box → ∀ w, ∃ w', JSBox_pixels box w = (Throw TypeError, w').
Proof.
  induction 1 as [|children c Hin _ IH]; intros w; [by exists w|].
  simpl. unfold flatMapUniq.
  assert (Hflat : ∀ w0, ∃ w', flatMap JSBox_pixels children w0 = (Throw TypeError, w')).
  { clear w. induction children as [|c' cs IHcs]; intros w0;
      [by apply elem_of_nil in Hin|]. simpl. unfold bind.
    destruct (JSBox_pixels c' w0) as [[ys|[]] w1] eqn:Hc'; [|by exists w1].
    apply elem_of_cons in Hin as [->|Hin].
    - destruct (IH w0) as [w' Hw']. congruence.
    - destruct (IHcs Hin w1) as [w' Hw']. rewrite Hw'. by exists w'. }
  destruct (Hflat w) as [w' Hw']. exists w'. by rewrite (bind_throw_run _ _ _ _ _ Hw').
Qed.

Lemma obj_boundingBox_run d w :
  wf w → has_rows d →
  ∃ c w1, obj_boundingBox d w = (Ok c, w1) ∧ wf w1 ∧ extends w w1 ∧ child_of d c.
Proof.
  intros W Hrows. destruct d as [s|color]; simpl.
  - destruct (Sprite_boundingBox_ok s w W Hrows) as (opp & w1 & Hbox & W1 & E1 & Hat & _).
    exists (Box (BoundingRect (_origin s) opp)), w1.
    rewrite (bind_run _ _ _ _ _ Hbox). split; [done|]. split; [done|]. split; [done|].
    eexists. split; [done|]. simpl. unfold sprite_box_coords. by rewrite Hat.
  - exists Undefined, w. split; [done|]. split; [done|]. split; [apply extends_refl|done].
Qed.

Lemma Layer_boundingBox_run l w :
  wf w → (∀ o, o ∈ objects l → has_rows (heap w o)) →
  ∃ children w1,
    Layer_boundingBox l w = (Ok (Group children), w1) ∧ wf w1 ∧ extends w w1 ∧
    Forall2 (fun o c => child_of (heap w o) c) (objects l) children.
Proof.
  intros W Hrows. unfold Layer_boundingBox.
  assert (Hmap : ∀ objs w0, wf w0 → heap w0 = heap w →
            (∀ o, o ∈ objs → has_rows (heap w o)) →
            ∃ cs w1,
              mapM (fun o => let* d := read (fun w => heap w o) in obj_boundingBox d)
                   objs w0 = (Ok cs, w1) ∧ wf w1 ∧ extends w0 w1 ∧
              Forall2 (fun o c => child_of (heap w o) c) objs cs).
  { induction objs as [|o objs IH]; intros w0 W0 Hh Hr.
    - exists [], w0. split; [done|]. split; [done|]. split; [apply extends_refl|constructor].
    - destruct (obj_boundingBox_run (heap w o) w0 W0 (Hr o (list_elem_of_here _ _)))
        as (c & w1 & Hc & W1 & E1 & Hchild).
      destruct (IH w1 W1) as (cs & w2 & Hcs & W2 & E2 & Hall).
      { destruct E1 as [_ -> _]. done. }
      { intros o' Ho'. apply Hr. by right. }
      assert (Hinner : (let* d := read (fun w => heap w o) in obj_boundingBox d) w0
                       = (Ok c, w1)).
      { assert (Hread : read (fun w => heap w o) w0 = (Ok (heap w o), w0))
          by (unfold read; by rewrite Hh).
        by rewrite (bind_run _ _ _ _ _ Hread). }
      exists (c :: cs), w2. simpl.
      rewrite (bind_run _ _ _ _ _ Hinner), (bind_run _ _ _ _ _ Hcs).
      split; [done|]. split; [done|]. split; [by eapply extends_trans|by constructor]. }
  destruct (Hmap (objects l) w W eq_refl Hrows) as (cs & w1 & Hcs & W1 & E1 & Hall).
  exists cs, w1. by rewrite (bind_run _ _ _ _ _ Hcs).
Qed.

Lemma JSBox_pixels_produces h c :
  c ≠ Undefined → (∀ cs, c ≠ Group cs) →
  produces h (JSBox_pixels c) (JSBox_coords c).
Proof.
  destruct c as [|b|cs]; intros H1 H2; [done| |by destruct (H2 cs)].
  apply BoundingBox_pixels_produces.
Qed.

(** X17.  [boundingBox] of a Layer whose members are all Sprites with a
    first bitmap row is a group whose [pixels()] returns, each once, exactly
    the Points that lie in the bounding box of some member. *)
Theorem Layer_boundingBox_pixels_spec l w :
  wf w →
  (∀ o, o ∈ objects l → ∃ s, heap w o = DSprite s ∧ pixels s ≠ []) →
  ∃ box w1 px w2,
    Layer_boundingBox l w = (Ok box, w1) ∧
    JSBox_pixels box w1 = (Ok px, w2) ∧
    heap w2 = heap w ∧ surface w2 = surface w ∧
    NoDup (coords px) ∧
    ∀ x y, (x, y) ∈ coords px ↔
           ∃ o s, o ∈ objects l ∧ heap w o = DSprite s ∧
                  in_box (_origin s) (length (default [] (pixels s !! 0%nat)))
                         (length (pixels s)) x y.
Proof.
  intros W Hsprites.
  destruct (Layer_boundingBox_run l w W) as (cs & w1 & Hbox & W1 & E1 & Hall).
  { intros o Ho. destruct (Hsprites o Ho) as (s & -> & Hne). done. }
  assert (Hdefined : ∀ c, c ∈ cs → c ≠ Undefined ∧ ∀ cs', c ≠ Group cs').
  { intros c Hc. apply list_elem_of_lookup in Hc as [i Hi].
    destruct (Forall2_lookup_r _ _ _ _ _ Hall Hi) as (o & Ho & Hchild).
    destruct (Hsprites o) as (s & Hs & _); [by eapply list_elem_of_lookup_2|].
    rewrite Hs in Hchild. destruct Hchild as (b & -> & _). done. }
  destruct (flatMapUniq_produces (heap w1) JSBox_pixels JSBox_coords cs) with (w := w1)
    as (px & w2 & Hpx & W2 & E2 & Hc & _); [|done|done|].
  { intros c Hc. by apply JSBox_pixels_produces; apply Hdefined. }
  exists (Group cs), w1, px, w2. split; [done|]. split; [done|].
  destruct (extends_trans _ _ _ E1 E2) as [_ Hheap Hsurf].
  split; [done|]. split; [done|]. split; [rewrite Hc; apply uniqc_NoDup|].
  intros x y. rewrite Hc, uniqc_elem, list_elem_of_bind. split.
  - intros (c & Hin & Hcin). apply list_elem_of_lookup in Hcin as [i Hi].
    destruct (Forall2_lookup_r _ _ _ _ _ Hall Hi) as (o & Ho & Hchild).
    assert (Hol : o ∈ objects l) by (by eapply list_elem_of_lookup_2).
    destruct (Hsprites o Hol) as (s & Hs & _). rewrite Hs in Hchild.
    destruct Hchild as (b & -> & Hb). simpl in Hin. rewrite Hb in Hin.
    exists o, s. split; [done|]. split; [done|]. by apply elem_of_sprite_box_coords.
  - intros (o & s & Ho & Hs & Hin). apply list_elem_of_lookup in Ho as [i Hi].
    destruct (Forall2_lookup_l _ _ _ _ _ Hall Hi) as (c & Hci & Hchild).
    rewrite Hs in Hchild. destruct Hchild as (b & -> & Hb).
    exists (Box b). split; [|by eapply list_elem_of_lookup_2].
    simpl. rewrite Hb. by apply elem_of_sprite_box_coords.
Qed.

Lemma Layer_boundingBox_pixels_spec_witness :
  let w := World_init two_sprites in
  wf w ∧
  ∃ box w1 px w2,
    Layer_boundingBox (mkLayer [0%nat; 1%nat] VFalse) w = (Ok box, w1) ∧
    JSBox_pixels box w1 = (Ok px, w2) ∧ ((3, 3) ∈ coords px).
Proof.
  intros w. split; [apply wf_init|].
  destruct (Layer_boundingBox_pixels_spec (mkLayer [0%nat; 1%nat] VFalse) w (wf_init _))
    as (box & w1 & px & w2 & Hbox & Hpx & _ & _ & _ & Hin).
  - intros o _. destruct o; eexists; (split; [reflexivity|discriminate]).
  - exists box, w1, px, w2. split; [done|]. split; [done|].
    apply Hin. exists 0%nat. eexists. split; [left|]. split; [reflexivity|].
    unfold in_box. simpl. lia.
Defined.

(** X18.  When a Background is among the members, the [boundingBox] getters
    of its Layer and of the Canvas still return (the Sprites having a first
    bitmap row), but [pixels()] of what they return throws a TypeError: the
    Background has no [boundingBox], so a child of the group is
    [undefined]. *)
Theorem boundingBox_over_Background_throws c w l o color :
  wf w →
  (∀ l' o', l' ∈ layers c → o' ∈ objects l' → has_rows (heap w o')) →
  l ∈ layers c → o ∈ objects l → heap w o = DBackground color →
  (∃ box w1 w2, Layer_boundingBox l w = (Ok box, w1) ∧
                JSBox_pixels box w1 = (Throw TypeError, w2)) ∧
  (∃ box w1 w2, Canvas_boundingBox c w = (Ok box, w1) ∧
                JSBox_pixels box w1 = (Throw TypeError, w2)).
Proof.
  intros W Hrows Hl Ho Hbg.
  assert (Hlayer : ∀ l' w0, wf w0 → heap w0 = heap w → l' ∈ layers c →
            ∃ cs w1, Layer_boundingBox l' w0 = (Ok (Group cs), w1) ∧ wf w1 ∧
                     extends w0 w1 ∧ (l' = l → has_undefined (Group cs))).
  { intros l' w0 W0 Hh Hl'.
    destruct (Layer_boundingBox_run l' w0 W0) as (cs & w1 & Hbox & W1 & E1 & Hall).
    { intros o' Ho'. rewrite Hh. by apply (Hrows l'). }
    exists cs, w1. split; [done|]. split; [done|]. split; [done|]. intros ->.
    apply list_elem_of_lookup in Ho as [i Hi].
    destruct (Forall2_lookup_l _ _ _ _ _ Hall Hi) as (c0 & Hci & Hchild).
    rewrite Hh, Hbg in Hchild. simpl in Hchild. subst c0.
    apply (has_undefined_child cs Undefined); [by eapply list_elem_of_lookup_2|constructor]. }
  split.
  - destruct (Hlayer l w W eq_refl Hl) as (cs & w1 & Hbox & _ & _ & Hund).
    destruct (has_undefined_throws _ (Hund eq_refl) w1) as [w2 Hthrow].
    by exists (Group cs), w1, w2.
  - unfold Canvas_boundingBox.
    assert (Hmap : ∀ ls w0, wf w0 → heap w0 = heap w → (∀ l', l' ∈ ls → l' ∈ layers c) →
              ∃ gs w1, mapM Layer_boundingBox ls w0 = (Ok gs, w1) ∧
                       (l ∈ ls → ∃ g, g ∈ gs ∧ has_undefined g)).
    { induction ls as [|l' ls IH]; intros w0 W0 Hh Hsub.
      - exists [], w0. split; [done|]. intros Hin. by apply elem_of_nil in Hin.
      - destruct (Hlayer l' w0 W0 Hh (Hsub l' (list_elem_of_here _ _)))
          as (cs & w1 & Hbox & W1 & E1 & Hund).
        destruct (IH w1 W1) as (gs & w2 & Hgs & Hex).
        { destruct E1 as [_ -> _]. done. }
        { intros l'' Hl''. apply Hsub. by right. }
        exists (Group cs :: gs), w2. simpl.
        rewrite (bind_run _ _ _ _ _ Hbox), (bind_run _ _ _ _ _ Hgs).
        split; [done|]. intros [->|Hin]%elem_of_cons.
        + exists (Group cs). split; [left|by apply Hund].
        + destruct (Hex Hin) as (g & Hg & Hu). exists g. split; [by right|done]. }
    destruct (Hmap (layers c) w W eq_refl (fun _ H => H)) as (gs & w1 & Hgs & Hex).
    destruct (Hex Hl) as (g & Hg & Hu).
    destruct (has_undefined_throws (Group gs) (has_undefined_child gs g Hg Hu) w1)
      as [w2 Hthrow].
    exists (Group gs), w1, w2. by rewrite (bind_run _ _ _ _ _ Hgs).
Qed.

Lemma boundingBox_over_Background_throws_witness :
  wf (World_init source_heap) ∧
  ∃ box w1 w2, Canvas_boundingBox source_canvas (World_init source_heap) = (Ok box, w1) ∧
               JSBox_pixels box w1 = (Throw TypeError, w2).
Proof.
  split; [apply wf_init|].
  apply (boundingBox_over_Background_throws source_canvas (World_init source_heap)
           (mkLayer [0%nat] VFalse) 0%nat (VString "#000") (wf_init _)).
  - intros l' o' _ _. by destruct o' as [|[|o']].
  - left.
  - left.
  - reflexivity.
Defined.

(** ** toString *)












(** ** Faults of a Sprite without rows, seen from outside *)

(** X21.  [move] on a Sprite without a bitmap row throws a TypeError after
    it has set [stale]: the Sprite is left stale at its old origin with its
    old [lastBoundingBox], and nothing else changes. *)
Theorem Sprite_move_no_rows w this s newOrigin :
  heap w this = DSprite s → pixels s = [] →
  ∃ w', Sprite_move this newOrigin w = (Throw TypeError, w') ∧
        heap w' this = DSprite (mkSprite (_origin s) (palette s) (pixels s) true
                                  (lastBoundingBox s)) ∧
        (∀ o, o ≠ this → heap w' o = heap w o) ∧
        points w' = points w ∧ next_point w' = next_point w ∧
        surface w' = surface w.
Proof.
  intros Hs Hnil.
  exists (set_heap (upd (heap w) this (DSprite (set_stale true s))) w).
  split; [|split; [|split; [|done]]].
  - unfold Sprite_move, Sprite_set_origin, bind, get_sprite, put_sprite, modify.
    rewrite Hs. simpl. unfold Sprite_boundingBox. simpl. by rewrite Hnil.
  - simpl. by rewrite upd_eq.
  - intros o Ho. simpl. by rewrite upd_ne.
Qed.

Lemma Sprite_move_no_rows_witness :
  let w := World_init (fun _ => DSprite (set_stale false (Sprite_new [] (mkPoint 0 3 3) ∅))) in
  ∃ w', Sprite_move 0%nat (mkPoint 1 5 5) w = (Throw TypeError, w') ∧
        obj_stale (heap w' 0%nat) = true.
Proof.
  intros w.
  destruct (Sprite_move_no_rows w 0%nat
              (set_stale false (Sprite_new [] (mkPoint 0 3 3) ∅)) (mkPoint 1 5 5)
              eq_refl eq_refl) as (w' & Hrun & Hthis & _).
  exists w'. split; [done|]. by rewrite Hthis.
Defined.

Lemma flatMap_throws {A} h (f : A -> M (list Point)) (g : A -> list coord) pre x post :
  (∀ y, y ∈ pre → produces h (f y) (g y)) →
  (∀ w, heap w = h → f x w = (Throw TypeError, w)) →
  ∀ w, wf w → heap w = h →
    ∃ w', flatMap f (pre ++ x :: post) w = (Throw TypeError, w') ∧
          heap w' = heap w ∧ surface w' = surface w.
Proof.
  intros Hpre Hx. induction pre as [|y pre IH]; intros w W Hh; simpl.
  - exists w. by rewrite (bind_throw_run _ _ _ _ _ (Hx w Hh)).
  - destruct (Hpre y (list_elem_of_here _ _) w W Hh) as (l & w1 & Hy & W1 & [_ Hh1 Hs1] & _).
    destruct (IH (fun y' Hy' => Hpre y' (list_elem_of_further _ _ _ Hy')) w1 W1)
      as (w' & Hrest & Hh' & Hs'); [congruence|].
    exists w'. rewrite (bind_run _ _ _ _ _ Hy), (bind_throw_run _ _ _ _ _ Hrest).
    split; [done|]. split; congruence.
Qed.

Lemma Layer_changedPixels_throws l w pre o post s :
  wf w → objects l = pre ++ o :: post →
  heap w o = DSprite s → stale s = true → pixels s = [] →
  (∀ o', o' ∈ pre → obj_stale (heap w o') = true → has_rows (heap w o')) →
  ∃ w', Layer_changedPixels l w = (Throw TypeError, w') ∧
        heap w' = heap w ∧ surface w' = surface w.
Proof.
  intros W Hobjs Hs Hst Hnil Hpre. unfold Layer_changedPixels, flatMapUniq.
  assert (Hread : read heap w = (Ok (heap w), w)) by done.
  rewrite (bind_run _ _ _ _ _ Hread), Hobjs, filter_app, filter_cons.
  rewrite Hs. simpl. rewrite Hst. simpl.
  destruct (flatMap_throws (heap w)
              (fun o0 => let* d := read (fun w0 => heap w0 o0) in obj_changedPixels d)
              (fun o0 => obj_changed_coords (heap w o0))
              (filter (fun o0 => obj_stale (heap w o0) = true) pre) o
              (filter (fun o0 => obj_stale (heap w o0) = true) post))
    with (w := w) as (w' & Hthrow & Hh & Hsurf); [| |done|done|].
  - intros y [Hy Hin]%list_elem_of_filter w1 W1 Hh1.
    assert (Hr : read (fun w0 => heap w0 y) w1 = (Ok (heap w y), w1))
      by (unfold read; by rewrite Hh1).
    rewrite (bind_run _ _ _ _ _ Hr).
    apply (obj_changedPixels_produces (heap w) (heap w y) (Hpre y Hin Hy) w1 W1 Hh1).
  - intros w1 Hh1. unfold bind, read. rewrite Hh1, Hs. simpl.
    unfold Sprite_changedPixels, Sprite_boundingBox, bind, throw.
    rewrite Hnil. simpl. by destruct (lastBoundingBox s).
  - exists w'. by rewrite (bind_throw_run _ _ _ _ _ Hthrow).
Qed.

(** X22.  The fault of a Sprite without rows is gated by its [stale] flag.
    While it is stale, [changedPixels()] of its Layer throws a TypeError (the
    stale members listed before it having rows), and [draw()] of a Canvas
    whose first layer this is throws before the context receives anything.
    Once it is not stale and nothing else is, [draw()] returns and does
    nothing. *)
Theorem changedPixels_fault_gated l ls w pre o post s :
  wf w → objects l = pre ++ o :: post →
  heap w o = DSprite s → pixels s = [] →
  (∀ o', o' ∈ pre → obj_stale (heap w o') = true → has_rows (heap w o')) →
  (stale s = true →
   ∃ w1 w2, Layer_changedPixels l w = (Throw TypeError, w1) ∧
            Canvas_draw (mkCanvas (l :: ls)) w = (Throw TypeError, w2) ∧
            heap w2 = heap w ∧ surface w2 = surface w) ∧
  ((∀ l' o', l' ∈ l :: ls → o' ∈ objects l' → obj_stale (heap w o') = false) →
   Canvas_draw (mkCanvas (l :: ls)) w = (Ok tt, w)).
Proof.
  intros W Hobjs Hs Hnil Hpre. split.
  - intros Hst.
    destruct (Layer_changedPixels_throws l w pre o post s W Hobjs Hs Hst Hnil Hpre)
      as (w1 & Hthrow & Hh & Hsurf).
    exists w1, w1. split; [done|]. split; [|done].
    assert (Hflat : flatMap Layer_changedPixels (l :: ls) w = (Throw TypeError, w1)).
    { change (flatMap Layer_changedPixels (l :: ls))
        with (let* ys := Layer_changedPixels l in
              let* zs := flatMap Layer_changedPixels ls in ret (ys ++ zs)).
      by rewrite (bind_throw_run _ _ _ _ _ Hthrow). }
    unfold Canvas_draw, Canvas_changedPixels, flatMapUniq.
    assert (Huniq : (let* ys := flatMap Layer_changedPixels (l :: ls) in ret (uniq ys)) w
                    = (Throw TypeError, w1))
      by (by rewrite (bind_throw_run _ _ _ _ _ Hflat)).
    by rewrite (bind_throw_run _ _ _ _ _ Huniq).
  - intros Hnone. by apply Canvas_draw_idle.
Qed.

Lemma changedPixels_fault_gated_witness :
  let w := World_init red_then_faulty in
  let l := mkLayer [0%nat; 1%nat] VFalse in
  wf w ∧
  ∃ w2, Canvas_draw (mkCanvas [l]) w = (Throw TypeError, w2) ∧ surface w2 = [].
Proof.
  intros w l. split; [apply wf_init|].
  destruct (changedPixels_fault_gated l [] w [0%nat] 1%nat []
              (Sprite_new [] (mkPoint 0 3 3) ∅) (wf_init _) eq_refl eq_refl eq_refl)
    as [Hstale _].
  - intros o' ->%list_elem_of_singleton _. discriminate.
  - destruct (Hstale eq_refl) as (w1 & w2 & _ & Hdraw & _ & Hsurf).
    by exists w2.
Defined.
